(** * mjolnir.kafka.bulk_daemon: the stream-to-index bridge daemon

    A shallow embedding of [mjolnir/kafka/bulk_daemon.py] and the properties
    its specification states about it.

    Modelling conventions.
    - A Python [dict] is an insertion-ordered association list with
      [dict_get] as lookup; JSON values are the values [json.loads] builds.
    - Clock readings ([time.time()], [time.monotonic()]) are exact rationals,
      in seconds.
    - Python exceptions are values of [exn]; a fallible computation returns
      [result A], and a computation with side effects threads a [world]
      (metrics registry, log, calls made to the collaborators).
    - The collaborators (the JSON decoder, [str], the kafka consumer, the
      elasticsearch client) are not part of the module: their answers are
      section variables or fields of the environment script. *)

From Stdlib Require Import ZArith QArith Lqa String Ascii List.
From stdpp Require Import gmap strings list fin_maps.

#[local] Set Warnings "-register-all,-clear-no-such-hyp".
Local Open Scope string_scope.
Local Open Scope list_scope.

(** ** Python values *)

(** A JSON number is an [int] or a [float]; a float is carried as its
    binary64 bit pattern, the daemon never computes with it. *)
Inductive number :=
  | NInt (z : Z)
  | NFloat (bits : Z).

Inductive json :=
  | JNull
  | JBool (b : bool)
  | JNum (n : number)
  | JStr (s : string)
  | JArr (xs : list json)
  | JObj (kvs : list (string * json)).

Abbreviation dict := (list (string * json)).
Abbreviation bytes := (list Byte.byte).

Inductive exn :=
  | KeyError (key : string)
  | TypeError
  | AttributeError
  | IndexError
  | ValueError
  | RuntimeError (what : string).

(** [inl v]: the call returned [v]; [inr e]: it raised [e]. *)
Definition result (A : Type) : Type := A + exn.

Definition ret {A} (a : A) : result A := inl a.
Definition raise {A} (e : exn) : result A := inr e.
Definition rbind {A B} (m : result A) (k : A -> result B) : result B :=
  match m with
  | inl a => k a
  | inr e => inr e
  end.

Notation "'let!' x ':=' m 'in' k" := (rbind m (fun x => k))
  (at level 10, x pattern, m at level 100, k at level 200).

Fixpoint dict_get {V} (k : string) (d : list (string * V)) : option V :=
  match d with
  | [] => None
  | (k', v) :: d' => if String.eqb k k' then Some v else dict_get k d'
  end.

Definition dict_keys {V} (d : list (string * V)) : list string := map fst d.

Definition dict_contains {V} (k : string) (d : list (string * V)) : bool :=
  match dict_get k d with Some _ => true | None => false end.

(** [v[k]] *)
Definition getitem (v : json) (k : string) : result json :=
  match v with
  | JObj d =>
      match dict_get k d with
      | Some x => ret x
      | None => raise (KeyError k)
      end
  | _ => raise TypeError
  end.

(** [v.keys()] *)
Definition keys (v : json) : result (list string) :=
  match v with
  | JObj d => ret (dict_keys d)
  | _ => raise AttributeError
  end.

(** ** Module constants *)

Definition FIELD_CONFIG : list (string * string) :=
  [("popularity_score", "within 20%")].

(** ** The request schema and the Draft 4 validator

    The keywords the schema uses, with the meaning
    [jsonschema.Draft4Validator] gives them.  [iter_errors] yields the
    errors of every keyword, in the order the keywords are written. *)

Inductive jtype := TInteger | TNumber | TString | TObject.

Definition is_type (v : json) (t : jtype) : bool :=
  match t, v with
  | TInteger, JNum (NInt _) => true
  | TNumber, JNum _ => true
  | TString, JStr _ => true
  | TObject, JObj _ => true
  | _, _ => false
  end.

Inductive schema :=
  Schema (type : list jtype)
         (additionalProperties : bool)
         (required : list string)
         (minProperties : nat)
         (properties : list (string * schema)).

Inductive verror :=
  | NotOfType (path : list string) (instance : json) (types : list jtype)
  | AdditionalProperties (path : list string) (extras : list string)
  | RequiredProperty (path : list string) (property : string)
  | NotEnoughProperties (path : list string) (instance : json).

Definition find_additional_properties
    (d : dict) (properties : list (string * schema)) : list string :=
  filter (fun k => negb (dict_contains k properties)) (dict_keys d).

Definition check_type (path : list string) (types : list jtype) (v : json)
  : list verror :=
  if existsb (is_type v) types then [] else [NotOfType path v types].

Definition check_additionalProperties (path : list string) (aP : bool)
    (properties : list (string * schema)) (v : json) : list verror :=
  match v with
  | JObj d =>
      match find_additional_properties d properties with
      | [] => []
      | extras => if aP then [] else [AdditionalProperties path extras]
      end
  | _ => []
  end.

Definition check_required (path : list string) (required : list string)
    (v : json) : list verror :=
  match v with
  | JObj d =>
      flat_map (fun property =>
                  if dict_contains property d then []
                  else [RequiredProperty path property]) required
  | _ => []
  end.

Definition check_minProperties (path : list string) (mP : nat) (v : json)
  : list verror :=
  match v with
  | JObj d => if (length d <? mP)%nat then [NotEnoughProperties path v] else []
  | _ => []
  end.

Fixpoint iter_errors (s : schema) (path : list string) (v : json)
  : list verror :=
  match s with
  | Schema type aP required mP properties =>
      check_type path type v
      ++ check_additionalProperties path aP properties v
      ++ check_required path required v
      ++ check_minProperties path mP v
      ++ match v with
         | JObj d =>
             (fix descend (ps : list (string * schema)) : list verror :=
                match ps with
                | [] => []
                | (property, subschema) :: ps' =>
                    match dict_get property d with
                    | Some x => iter_errors subschema (path ++ [property]) x
                    | None => []
                    end ++ descend ps'
                end) properties
         | _ => []
         end
  end.

(** A schema that only constrains the type. *)
Definition of_type (types : list jtype) : schema :=
  Schema types true [] 0 [].

Definition VALIDATOR : schema :=
  Schema [TObject] false ["_index"; "_id"; "_source"] 0
    [ ("_index", of_type [TString]);
      ("_id", of_type [TInteger; TString]);
      ("_source",
        Schema [TObject] false [] 1
          (map (fun field => (fst field, of_type [TNumber; TString]))
               FIELD_CONFIG)) ].

Definition validate (v : json) : list verror := iter_errors VALIDATOR [] v.

(** ** expand_action *)

Record update_meta := UpdateMeta {
  _index : json;
  _type : string;
  _id : json;
}.

(** [{'update': {...}}] *)
Inductive action := Update (meta : update_meta).

Record script_params := ScriptParams {
  handlers : list (string * string);
  source : json;
}.

Record script := Script {
  inline : string;
  lang : string;
  params : script_params;
}.

(** [{'script': {...}}] *)
Inductive body := BodyScript (s : script).

(** [{field: FIELD_CONFIG[field] for field in ks}] *)
Fixpoint noop_handlers_of (ks : list string) : result (list (string * string)) :=
  match ks with
  | [] => ret []
  | field :: ks' =>
      match dict_get field FIELD_CONFIG with
      | None => raise (KeyError field)
      | Some policy =>
          let! rest := noop_handlers_of ks' in
          ret ((field, policy) :: rest)
      end
  end.

Definition expand_action (message : json) : result (action * body) :=
  let! index := getitem message "_index" in
  let! id := getitem message "_id" in
  let action := Update {| _index := index; _type := "page"; _id := id |} in
  let! src := getitem message "_source" in
  let! ks := keys src in
  let! noop_handlers := noop_handlers_of ks in
  let! src' := getitem message "_source" in
  let source :=
    BodyScript {| inline := "super_detect_noop";
                  lang := "native";
                  params := {| handlers := noop_handlers; source := src' |} |} in
  ret (action, source).

(** ** The world the daemon acts on *)

(** [kafka.TopicPartition] and [kafka.OffsetAndMetadata]. *)
Abbreviation TopicPartition := (string * Z)%type.
Abbreviation OffsetAndMetadata := (Z * string)%type.
Abbreviation offsets_map := (gmap TopicPartition OffsetAndMetadata).

(** [kafka.consumer.fetcher.ConsumerRecord], the fields the daemon reads. *)
Record ConsumerRecord := {
  offset : Z;
  value : bytes;
}.

(** A poll response: [{TopicPartition: [ConsumerRecord, ...]}], in the
    order the consumer filled it. *)
Abbreviation poll_response := (list (TopicPartition * list ConsumerRecord)).

(** Calls into the collaborators, in the order they are made.  A cluster
    handle is named by the bootstrap host it was built from. *)
Inductive call :=
  | Call_commit_async (offsets : offsets_map)
  | Call_poll (timeout_ms : Z)
  | Call_get_alias (cluster : string)
  | Call_streaming_bulk (cluster : string) (records : list json)
  | Return_stream_to_es (cluster : string) (records : list json)
  | Call_commit (offsets : offsets_map)
  | Call_close.

Inductive log_arg :=
  | ArgStr (s : string)
  | ArgBytes (b : bytes)
  | ArgJson (v : json).

(** [log.warning(msg, *args)] *)
Inductive log_record := Warning (msg : string) (args : list log_arg).

(** The [Metric] namespace: each labelled counter family is the map from
    label value to count; a child that was never incremented reads 0. *)
Record Metric := {
  _INVALID_RECORDS : gmap string nat;
  SUBMIT_BATCH : nat;
  RECORDS_PROCESSED : nat;
  _BULK_ACTION_RESULT : gmap string nat;
}.

Definition FAIL_VALIDATE := "fail_validate".
Definition MISSING_INDEX := "missing_index".
Definition ACTION_RESULTS : list (string * string) :=
  [("updated", "updated"); ("created", "created"); ("noop", "noop")].
Definition OK_UNKNOWN := "ok_unknown".
Definition MISSING := "missing".
Definition FAILED := "failed".

Record world := World {
  metrics : Metric;
  log : list log_record;
  calls : list call;
}.

Definition inc (label : string) (family : gmap string nat) : gmap string nat :=
  <[label := S (family !!! label)]> family.

Definition inc_invalid_records (label : string) (w : world) : world :=
  {| metrics := {| _INVALID_RECORDS := inc label (_INVALID_RECORDS (metrics w));
                   SUBMIT_BATCH := SUBMIT_BATCH (metrics w);
                   RECORDS_PROCESSED := RECORDS_PROCESSED (metrics w);
                   _BULK_ACTION_RESULT := _BULK_ACTION_RESULT (metrics w) |};
     log := log w; calls := calls w |}.

Definition inc_bulk_action (label : string) (w : world) : world :=
  {| metrics := {| _INVALID_RECORDS := _INVALID_RECORDS (metrics w);
                   SUBMIT_BATCH := SUBMIT_BATCH (metrics w);
                   RECORDS_PROCESSED := RECORDS_PROCESSED (metrics w);
                   _BULK_ACTION_RESULT := inc label (_BULK_ACTION_RESULT (metrics w)) |};
     log := log w; calls := calls w |}.

Definition inc_records_processed (n : nat) (w : world) : world :=
  {| metrics := {| _INVALID_RECORDS := _INVALID_RECORDS (metrics w);
                   SUBMIT_BATCH := SUBMIT_BATCH (metrics w);
                   RECORDS_PROCESSED := RECORDS_PROCESSED (metrics w) + n;
                   _BULK_ACTION_RESULT := _BULK_ACTION_RESULT (metrics w) |};
     log := log w; calls := calls w |}.

(** One observation of the [SUBMIT_BATCH] summary; the duration itself is
    not modelled. *)
Definition observe_submit_batch (w : world) : world :=
  {| metrics := {| _INVALID_RECORDS := _INVALID_RECORDS (metrics w);
                   SUBMIT_BATCH := S (SUBMIT_BATCH (metrics w));
                   RECORDS_PROCESSED := RECORDS_PROCESSED (metrics w);
                   _BULK_ACTION_RESULT := _BULK_ACTION_RESULT (metrics w) |};
     log := log w; calls := calls w |}.

Definition log_warning (msg : string) (args : list log_arg) (w : world) : world :=
  {| metrics := metrics w; log := log w ++ [Warning msg args]; calls := calls w |}.

Definition record_call (c : call) (w : world) : world :=
  {| metrics := metrics w; log := log w; calls := calls w ++ [c] |}.

(** ** Computations with state and exceptions

    A statement run in state [s] ends in a state and either returns or
    raises; what it did to the state before raising stays done. *)
Definition M (S A : Type) : Type := S -> result A * S.

Definition mret {S A} (a : A) : M S A := fun s => (inl a, s).
Definition mraise {S A} (e : exn) : M S A := fun s => (inr e, s).
Definition mbind {S A B} (m : M S A) (k : A -> M S B) : M S B :=
  fun s => match m s with
           | (inl a, s') => k a s'
           | (inr e, s') => (inr e, s')
           end.
Definition lift {S A} (r : result A) : M S A := fun s => (r, s).
Definition modify {S} (f : S -> S) : M S unit := fun s => (inl tt, f s).

Notation "'do' x <- m ; k" := (mbind m (fun x => k))
  (at level 10, x pattern, m at level 100, k at level 200).

(** [for x in xs: body(x)], stopping at the first exception. *)
Fixpoint for_each {S A} (xs : list A) (body : A -> M S unit) : M S unit :=
  match xs with
  | [] => mret tt
  | x :: xs' => do _ <- body x; for_each xs' body
  end.

(** [[f(x) for x in xs]] *)
Fixpoint comprehension {S A B} (xs : list A) (f : A -> M S B) : M S (list B) :=
  match xs with
  | [] => mret []
  | x :: xs' => do y <- f x; do ys <- comprehension xs' f; mret (y :: ys)
  end.

(** ** stream_to_es *)

(** [d.popitem()]: the pair inserted last. *)
Definition popitem (d : dict) : result (string * json) :=
  match last d with
  | Some kv => ret kv
  | None => raise (KeyError "popitem(): dictionary is empty")
  end.

(** [v.get(k, default)] *)
Definition get_default (v : json) (k : string) (default : json) : result json :=
  match v with
  | JObj d => ret (match dict_get k d with Some x => x | None => default end)
  | _ => raise AttributeError
  end.

(** [k in v] for a string [k] *)
Definition contains (k : string) (v : json) : result bool :=
  match v with
  | JObj d => ret (dict_contains k d)
  | JArr xs => ret (existsb (fun x => match x with
                                      | JStr s => String.eqb s k
                                      | _ => false
                                      end) xs)
  | JStr s => ret (match index 0 k s with Some _ => true | None => false end)
  | _ => raise TypeError
  end.

(** [v in d] for a dict [d] with string keys: the key it finds; lists and
    dicts are unhashable. *)
Definition lookup_key {V} (v : json) (d : list (string * V)) : result (option V) :=
  match v with
  | JStr s => ret (dict_get s d)
  | JArr _ | JObj _ => raise TypeError
  | _ => ret None
  end.

(** [v == 404]; [4645814859353554944] is the binary64 pattern of [404.0]. *)
Definition eq_404 (v : json) : bool :=
  match v with
  | JNum (NInt z) => (z =? 404)%Z
  | JNum (NFloat bits) => (bits =? 4645814859353554944)%Z
  | _ => false
  end.

(** [s[:n]] *)
Definition str_prefix (n : nat) (s : string) : string := substring 0 n s.

(** ** ttl_memoize *)

Module MemoizeEntry.
Record t (V : Type) := mk { value : V; valid_until : Q }.
Arguments mk {V} _ _.
Arguments value {V} _.
Arguments valid_until {V} _.
End MemoizeEntry.

(** [x > y] on clock readings *)
Definition Qgtb (x y : Q) : bool := if Qlt_le_dec y x then true else false.

Definition TTL : Q := 300.

Section ttl_memoize.

(** [K]: the argument tuples; [V]: what the producer returns; [S]: the
    state the producer acts on. *)
Context {K : Type} `{Countable K} {V S : Type}.

(** The producer [f], applied to the argument tuple. *)
Variable f : K -> M S V.

Abbreviation cache_map := (gmap K (MemoizeEntry.t V)).

(** [memoized], applied to the argument tuple [args], when [time.time()]
    reads [now]; the state is the closure's [cache] together with the
    producer's state. *)
Definition memoized (now : Q) (args : K) : M (cache_map * S) V :=
  fun '(cache, s) =>
    let fresh :=
      match cache !! args with
      | Some entry =>
          if Qgtb (MemoizeEntry.valid_until entry) now
          then Some (MemoizeEntry.value entry)
          else None
      | None => None
      end in
    match fresh with
    | Some value => (inl value, (cache, s))
    | None =>
        match f args s with
        | (inl value, s') =>
            (inl value,
             (<[args := MemoizeEntry.mk value (now + TTL)%Q]> cache, s'))
        | (inr e, s') => (inr e, (cache, s'))
        end
    end.

End ttl_memoize.

Section Daemon.

(** [json.loads(payload.decode('utf-8'))]; a payload that is not UTF-8 or
    not JSON raises [ValueError] ([UnicodeDecodeError] and
    [JSONDecodeError] are [ValueError]s). *)
Variable json_loads : bytes -> result json.
(** [str(v)] for a value, and for a [jsonschema.ValidationError]. *)
Variable str_json : json -> string.
Variable str_error : verror -> string.

(** The body of the loop over the client's responses. *)
Definition handle_bulk_response (ok : bool) (result : dict) : M world unit :=
  do (action, result) <- lift (popitem result);
  do status <- lift (get_default result "status" (JNum (NInt 500)));
  if ok then
    do has_result <- lift (contains "result" result);
    do counter <-
      (if has_result : bool then
         do r <- lift (getitem result "result");
         lift (lookup_key r ACTION_RESULTS)
       else mret None);
    match counter with
    | Some label => modify (inc_bulk_action label)
    | None => modify (inc_bulk_action OK_UNKNOWN)
    end
  else if eq_404 status then
    modify (inc_bulk_action MISSING)
  else
    do _ <- modify (inc_bulk_action FAILED);
    modify (log_warning "Failed elasticsearch %s request: %s"
              [ArgStr action; ArgStr (str_prefix 512 (str_json result))]).

(** What [streaming_bulk] does with the actions it is given: the
    [(ok, item)] pairs it yields, and the exception it then raises, if
    any.  It is handed the outcome of [expand_action] on every record. *)
Definition bulk_client : Type :=
  string -> list (result (action * body)) -> list (bool * dict) * option exn.

Definition stream_to_es (streaming_bulk : bulk_client)
    (cluster : string) (records : list json) : M world unit :=
  do _ <- modify (record_call (Call_streaming_bulk cluster records));
  let '(responses, failure) :=
    streaming_bulk cluster (map expand_action records) in
  do _ <- for_each responses (fun '(ok, result) => handle_bulk_response ok result);
  match failure with
  | Some e => mraise e
  | None => modify (record_call (Return_stream_to_es cluster records))
  end.

(** ** available_indices *)

(** The loop over [cluster.indices.get_alias().items()]. *)
Fixpoint collect_indices (items : dict) (indices : gset string)
  : result (gset string) :=
  match items with
  | [] => ret indices
  | (index_name, data) :: items' =>
      let indices := indices ∪ {[index_name]} in
      let! aliases := getitem data "aliases" in
      let! names := keys aliases in
      collect_indices items' (indices ∪ list_to_set names)
  end.

Definition available_indices (get_alias : string -> result dict)
    (cluster : string) : M world (gset string) :=
  do _ <- modify (record_call (Call_get_alias cluster));
  do aliases <- lift (get_alias cluster);
  lift (collect_indices aliases ∅).

(** ** split_records_by_cluster *)

(** [v in indices] for a set of strings; lists and dicts are unhashable. *)
Definition in_indices (v : json) (indices : gset string) : result bool :=
  match v with
  | JStr s => ret (bool_decide (s ∈ indices))
  | JArr _ | JObj _ => raise TypeError
  | _ => ret false
  end.

(** The [for i, indices in enumerate(indices_on_clusters)] loop, entered
    at position [i]: [Some i] where it breaks, [None] when it runs into
    its [else]. *)
Fixpoint find_cluster (value : json) (i : nat)
    (indices_on_clusters : list (gset string)) : result (option nat) :=
  match indices_on_clusters with
  | [] => ret None
  | indices :: rest =>
      let! index := getitem value "_index" in
      let! found := in_indices index indices in
      if found then ret (Some i) else find_cluster value (S i) rest
  end.

(** [split[i].append(value)] *)
Definition append_at (i : nat) (value : json) (split : list (list json))
  : list (list json) :=
  alter (fun records => records ++ [value]) i split.

(** ['\n'.join(ss)] *)
Fixpoint join_lines (ss : list string) : string :=
  match ss with
  | [] => ""
  | [s] => s
  | s :: ss' => s ++ String "010" (join_lines ss')
  end.

(** The body of the loop over the records. *)
Definition split_record (indices_on_clusters : list (gset string))
    (record : ConsumerRecord) (split : list (list json))
  : M world (list (list json)) :=
  match json_loads (value record) with
  | inr ValueError =>
      do _ <- modify (log_warning "Invalid message: %s"
                        [ArgBytes (take 128 (value record))]);
      mret split
  | inr e => mraise e
  | inl value =>
      match validate value with
      | (_ :: _) as errors =>
          do _ <- modify (inc_invalid_records FAIL_VALIDATE);
          do _ <- modify (log_warning (join_lines (map str_error errors)) []);
          mret split
      | [] =>
          do target <- lift (find_cluster value 0 indices_on_clusters);
          match target with
          | Some i => mret (append_at i value split)
          | None =>
              do _ <- modify (inc_invalid_records MISSING_INDEX);
              do index <- lift (getitem value "_index");
              do _ <- modify (log_warning "Could not find cluster for index %s"
                                [ArgJson index]);
              mret split
          end
      end
  end.

(** A loop that updates a local variable. *)
Fixpoint for_fold {S A B} (xs : list A) (body : A -> B -> M S B) (acc : B)
  : M S B :=
  match xs with
  | [] => mret acc
  | x :: xs' => do acc' <- body x acc; for_fold xs' body acc'
  end.

Definition split_records_by_cluster (indices_on_clusters : list (gset string))
    (poll_response : poll_response) : M world (list (list json)) :=
  let split := map (fun _ => []) indices_on_clusters in
  for_fold poll_response
    (fun '(_, records) split =>
       for_fold records (split_record indices_on_clusters) split)
    split.

(** ** run *)

(** What the collaborators answer during one pass through the loop. *)
Record env := Env {
  time_monotonic : Q;
  commit_async : offsets_map -> option exn;
  poll : result poll_response;
  time_time : Q;
  get_alias : string -> result dict;
  streaming_bulk : bulk_client;
}.

(** What the consumer answers during the [finally] block. *)
Record shutdown := Shutdown {
  commit : offsets_map -> option exn;
  close : option exn;
}.

(** The local variables of [run], the cache of
    [all_available_indices_memo] among them, and the world. *)
Record state := State {
  last_commit : Q;
  offsets : offsets_map;
  cache : gmap unit (MemoizeEntry.t (list (gset string)));
  the_world : world;
}.

Definition in_world {A} (m : M world A) : M state A :=
  fun s =>
    let '(r, w) := m (the_world s) in
    (r, {| last_commit := last_commit s; offsets := offsets s;
           cache := cache s; the_world := w |}).

Definition set_last_commit (now : Q) (s : state) : state :=
  {| last_commit := now; offsets := offsets s;
     cache := cache s; the_world := the_world s |}.

Definition set_offsets (o : offsets_map) (s : state) : state :=
  {| last_commit := last_commit s; offsets := o;
     cache := cache s; the_world := the_world s |}.

(** A call that returns nothing the daemon uses, but may raise. *)
Definition call_out (c : call) (answer : option exn) : M world unit :=
  do _ <- modify (record_call c);
  match answer with
  | Some e => mraise e
  | None => mret tt
  end.

Definition offset_commit_interval_sec : Q := 60.

(** [if offsets and now - last_commit > offset_commit_interval_sec: ...] *)
Definition commit_gate (e : env) (now : Q) : M state unit :=
  fun s =>
    if bool_decide (offsets s ≠ ∅)
       && Qgtb (now - last_commit s) offset_commit_interval_sec
    then
      (do _ <- in_world (call_out (Call_commit_async (offsets s))
                           (commit_async e (offsets s)));
       do _ <- modify (set_last_commit now);
       modify (set_offsets ∅)) s
    else (inl tt, s).

(** [all_available_indices_memo()] *)
Definition all_available_indices_memo (es_clusters : list string) (e : env)
  : M state (list (gset string)) :=
  fun s =>
    let '(r, (cache', w)) :=
      memoized (fun _ : unit =>
                  comprehension es_clusters (available_indices (get_alias e)))
               (time_time e) tt (cache s, the_world s) in
    (r, {| last_commit := last_commit s; offsets := offsets s;
           cache := cache'; the_world := w |}).

(** [with Metric.SUBMIT_BATCH.time(): body]: the observation is made when
    the block is left, by return or by exception. *)
Definition timed {A} (body : M world A) : M world A :=
  fun w => let '(r, w') := body w in (r, observe_submit_batch w').

(** [zip(xs, ys)] *)
Fixpoint zip {A B} (xs : list A) (ys : list B) : list (A * B) :=
  match xs, ys with
  | x :: xs', y :: ys' => (x, y) :: zip xs' ys'
  | _, _ => []
  end.

Definition submit_all (es_clusters : list string) (e : env)
    (split : list (list json)) : M world unit :=
  timed (for_each (zip es_clusters split)
           (fun '(cluster, records) =>
              match records with
              | [] => mret tt
              | _ :: _ => stream_to_es (streaming_bulk e) cluster records
              end)).

(** [offsets[tp] = kafka.OffsetAndMetadata(records[-1].offset + 1, '')] *)
Definition stage (tp : TopicPartition) (records : list ConsumerRecord)
  : M state unit :=
  match last records with
  | None => mraise IndexError
  | Some record =>
      modify (fun s => set_offsets (<[tp := ((offset record + 1)%Z, "")]> (offsets s)) s)
  end.

Definition total_records (batch : poll_response) : nat :=
  list_sum (map (fun '(_, x) => length x) batch).

(** One pass through the body of [while True]. *)
Definition iteration (es_clusters : list string) (e : env) : M state unit :=
  let now := time_monotonic e in
  do _ <- commit_gate e now;
  do _ <- in_world (modify (record_call (Call_poll 60000)));
  do batch <- lift (poll e);
  match batch with
  | [] => mret tt
  | _ :: _ =>
      do _ <- in_world (modify (inc_records_processed (total_records batch)));
      do indices <- all_available_indices_memo es_clusters e;
      do split <- in_world (split_records_by_cluster indices batch);
      do _ <- in_world (submit_all es_clusters e split);
      for_each batch (fun '(tp, records) => stage tp records)
  end.

(** The loop, for as long as the script of answers lasts; it is left only
    by an exception. *)
Definition while_true (es_clusters : list string) (script : list env)
  : M state unit :=
  for_each script (iteration es_clusters).

(** The [finally] block. *)
Definition finally (fin : shutdown) : M state unit :=
  fun s =>
    (do _ <- (if bool_decide (offsets s ≠ ∅)
              then in_world (call_out (Call_commit (offsets s))
                               (commit fin (offsets s)))
              else mret tt);
     in_world (call_out Call_close (close fin))) s.

Definition initial_state (w : world) : state :=
  {| last_commit := 0; offsets := ∅; cache := ∅; the_world := w |}.

(** [run], from the [try] on: [es_clusters] is what [make_es_clusters]
    returned and the consumer is subscribed.  The result is [inl tt]
    while the loop is still running when the script ends, and [inr e]
    when [run] was left by the exception [e]. *)
Definition run (es_clusters : list string) (script : list env)
    (fin : shutdown) (w : world) : result unit * state :=
  match while_true es_clusters script (initial_state w) with
  | (inl tt, s) => (inl tt, s)
  | (inr e, s) =>
      match finally fin s with
      | (inl tt, s') => (inr e, s')
      | (inr e', s') => (inr e', s')
      end
  end.

End Daemon.

(** * Properties *)

(** ** Dictionaries *)

Lemma dict_contains_true {V} k (d : list (string * V)) :
  dict_contains k d = true <-> exists v, dict_get k d = Some v.
Proof.
  unfold dict_contains. destruct (dict_get k d) as [v|]; split.
  - intros _. exists v. reflexivity.
  - reflexivity.
  - discriminate.
  - intros [v Hv]. discriminate Hv.
Qed.

Lemma dict_contains_map_keys {V W} (g : string * V -> W) k (d : list (string * V)) :
  dict_contains k (map (fun kv => (fst kv, g kv)) d) = dict_contains k d.
Proof.
  unfold dict_contains. induction d as [|[k' v] d IH]; simpl; [reflexivity|].
  destruct (String.eqb k k'); [reflexivity|exact IH].
Qed.

Lemma dict_get_keys {V} k (d : list (string * V)) v :
  dict_get k d = Some v -> k ∈ dict_keys d.
Proof.
  induction d as [|[k' v'] d IH]; simpl; [discriminate|].
  destruct (String.eqb_spec k k') as [->|Hne].
  - intros _. apply list_elem_of_here.
  - intros Hd. apply list_elem_of_further. auto.
Qed.

Lemma keys_dict_get {V} k (d : list (string * V)) :
  k ∈ dict_keys d -> exists v, dict_get k d = Some v.
Proof.
  induction d as [|[k' v'] d IH]; simpl.
  - intros Hin. inversion Hin.
  - intros Hin. destruct (String.eqb_spec k k') as [->|Hne]; [eauto|].
    apply IH. inversion Hin; subst; [congruence|assumption].
Qed.

(** ** The validator *)

Lemma find_additional_properties_nil d properties :
  find_additional_properties d properties = [] ->
  forall k, k ∈ dict_keys d -> dict_contains k properties = true.
Proof.
  unfold find_additional_properties. intros Hnil k Hk.
  destruct (dict_contains k properties) eqn:Hc; [reflexivity|].
  assert (Hin : k ∈ filter (fun k => negb (dict_contains k properties)) (dict_keys d)).
  { apply list_elem_of_filter. rewrite Hc. split; [exact I|exact Hk]. }
  rewrite Hnil in Hin. inversion Hin.
Qed.

(** What a request that passes validation looks like. *)
Record valid_request (v : json) (d : dict) (index : string) (id : json)
    (src : dict) : Prop := {
  vr_object : v = JObj d;
  vr_index : dict_get "_index" d = Some (JStr index);
  vr_id : dict_get "_id" d = Some id;
  vr_id_type : is_type id TInteger || is_type id TString = true;
  vr_source : dict_get "_source" d = Some (JObj src);
  vr_source_nonempty : src <> [];
  vr_source_fields :
    forall k, k ∈ dict_keys src -> dict_contains k FIELD_CONFIG = true;
}.

Lemma validate_nil_inv v :
  validate v = [] -> exists d index id src, valid_request v d index id src.
Proof.
  unfold validate, VALIDATOR. cbn [iter_errors].
  intros Hv.
  apply app_eq_nil in Hv as [Htype Hv].
  apply app_eq_nil in Hv as [_ Hv].
  apply app_eq_nil in Hv as [Hreq Hv].
  apply app_eq_nil in Hv as [_ Hprops].
  destruct v as [| | | | |d]; try discriminate Htype.
  cbn in Hreq.
  destruct (dict_contains "_index" d) eqn:Hi; [|discriminate Hreq].
  destruct (dict_contains "_id" d) eqn:Hid; [|discriminate Hreq].
  destruct (dict_contains "_source" d) eqn:Hs; [|discriminate Hreq].
  apply dict_contains_true in Hi as [index Hi].
  apply dict_contains_true in Hid as [id Hid].
  apply dict_contains_true in Hs as [src Hs].
  rewrite Hi, Hid, Hs in Hprops.
  apply app_eq_nil in Hprops as [Hindex Hprops].
  apply app_eq_nil in Hprops as [Hidt Hprops].
  apply app_eq_nil in Hprops as [Hsrc _].
  apply app_eq_nil in Hindex as [Hindex _].
  apply app_eq_nil in Hidt as [Hidt _].
  destruct index as [| | |index| |]; try discriminate Hindex.
  cbn [iter_errors] in Hsrc.
  apply app_eq_nil in Hsrc as [Hst Hsrc].
  apply app_eq_nil in Hsrc as [Hsa Hsrc].
  apply app_eq_nil in Hsrc as [_ Hsrc].
  apply app_eq_nil in Hsrc as [Hsm _].
  destruct src as [| | | | |src]; try discriminate Hst.
  exists d, index, id, src. split; auto.
  - unfold check_type in Hidt. cbn [existsb] in Hidt.
    rewrite orb_false_r in Hidt.
    destruct (is_type id TInteger || is_type id TString); [reflexivity|discriminate].
  - intros ->. discriminate Hsm.
  - cbn [check_additionalProperties] in Hsa.
    intros k Hk.
    rewrite <- (dict_contains_map_keys (fun _ => of_type [TNumber; TString])).
    revert k Hk. apply find_additional_properties_nil.
    match type of Hsa with
    | match ?l with _ => _ end = _ => destruct l; [reflexivity|discriminate Hsa]
    end.
Qed.

(** ** expand_action *)

Lemma noop_handlers_of_ok (ks : list string) :
  (forall k, k ∈ ks -> dict_contains k FIELD_CONFIG = true) ->
  exists hs,
    noop_handlers_of ks = inl hs /\
    dict_keys hs = ks /\
    forall k, k ∈ ks ->
      exists policy,
        dict_get k FIELD_CONFIG = Some policy /\ dict_get k hs = Some policy.
Proof.
  induction ks as [|field ks IH]; intros Hks.
  - exists []. repeat split. intros k Hk. inversion Hk.
  - destruct IH as (hs & Hhs & Hkeys & Hpol).
    { intros k Hk. apply Hks. apply list_elem_of_further. exact Hk. }
    assert (Hf : dict_contains field FIELD_CONFIG = true).
    { apply Hks. apply list_elem_of_here. }
    apply dict_contains_true in Hf as [policy Hf].
    exists ((field, policy) :: hs). cbn [noop_handlers_of].
    rewrite Hf, Hhs. cbn. repeat split.
    + f_equal. exact Hkeys.
    + intros k Hk. destruct (String.eqb_spec k field) as [->|Hne].
      * exists policy. split; [exact Hf|reflexivity].
      * apply Hpol. inversion Hk; subst; [congruence|assumption].
Qed.

(** C2 (action shape).  For a request that passed validation,
    [expand_action] returns: the action [{update: {_index, _type, _id}}]
    with the request's [_index] and [_id] and the literal type ["page"];
    and a body whose script is ["super_detect_noop"] in language
    ["native"], whose [source] parameter is the request's [_source]
    unchanged, and whose [handlers] parameter has exactly the keys of
    [_source], each mapped to the policy [FIELD_CONFIG] gives it. *)
Theorem expand_action_shape (message : json) :
  validate message = [] ->
  exists index id src noop_handlers,
    getitem message "_index" = inl index /\
    getitem message "_id" = inl id /\
    getitem message "_source" = inl (JObj src) /\
    expand_action message =
      inl (Update {| _index := index; _type := "page"; _id := id |},
           BodyScript
             {| inline := "super_detect_noop";
                lang := "native";
                params := {| handlers := noop_handlers;
                             source := JObj src |} |}) /\
    dict_keys noop_handlers = dict_keys src /\
    (forall field, field ∈ dict_keys src ->
       exists policy,
         dict_get field FIELD_CONFIG = Some policy /\
         dict_get field noop_handlers = Some policy).
Proof.
  intros Hvalid.
  destruct (validate_nil_inv message Hvalid) as (d & index & id & src & Hreq).
  destruct Hreq as [-> Hindex Hid _ Hsrc _ Hfields].
  destruct (noop_handlers_of_ok (dict_keys src) Hfields) as (hs & Hhs & Hkeys & Hpol).
  exists (JStr index), id, src, hs.
  unfold expand_action, getitem, keys.
  rewrite Hindex, Hid, Hsrc. cbn. rewrite Hhs. cbn.
  repeat split; auto.
Qed.

(** ** Clock readings *)

Lemma Qgtb_true_of_lt (x y : Q) : (y < x)%Q -> Qgtb x y = true.
Proof.
  intros Hlt. unfold Qgtb. destruct (Qlt_le_dec y x) as [_|Hle]; [reflexivity|].
  exfalso. exact (Qlt_not_le _ _ Hlt Hle).
Qed.

Lemma Qgtb_false (x y : Q) : (x <= y)%Q -> Qgtb x y = false.
Proof.
  intros Hle. unfold Qgtb. destruct (Qlt_le_dec y x) as [Hlt|_]; [|reflexivity].
  exfalso. exact (Qlt_not_le _ _ Hlt Hle).
Qed.

(** ** Counters *)

Lemma inc_lookup (label l : string) (family : gmap string nat) :
  inc label family !!! l =
  (family !!! l + (if bool_decide (l = label) then 1 else 0))%nat.
Proof.
  unfold inc. case_bool_decide as Hl.
  - subst l. rewrite lookup_total_insert_eq. lia.
  - rewrite lookup_total_insert_ne by congruence. lia.
Qed.


(** ** stream_to_es *)

(** Lists and dicts are the JSON values that cannot be dictionary keys. *)
Definition hashable (v : json) : bool :=
  match v with
  | JArr _ | JObj _ => false
  | _ => true
  end.

(** A response item as the bulk helper yields it: the operation key [op]
    (the entry [popitem] takes) with an object as payload; the payload's
    [result], when it has one, is hashable (it is a string in what
    elasticsearch answers). *)
Definition es_response_item (item : dict) (op : string) (payload : dict) : Prop :=
  last item = Some (op, JObj payload) /\
  forall r, dict_get "result" payload = Some r -> hashable r = true.

(** The status the daemon reads: [500] when the payload has none. *)
Definition status_of (payload : dict) : json :=
  match dict_get "status" payload with
  | Some status => status
  | None => JNum (NInt 500)
  end.

(** The counter the specification assigns to a response item. *)
Definition bulk_action_label (ok : bool) (payload : dict) : string :=
  if ok then
    match dict_get "result" payload with
    | Some (JStr r) =>
        if bool_decide (r ∈ ["updated"; "created"; "noop"]) then r
        else "ok_unknown"
    | _ => "ok_unknown"
    end
  else if eq_404 (status_of payload) then "missing"
  else "failed".

Section Properties.

Variable json_loads : bytes -> result json.
Variable str_json : json -> string.
Variable str_error : verror -> string.


(** ** split_records_by_cluster: one record *)

Lemma find_cluster_spec (v : json) (index : string) :
  getitem v "_index" = inl (JStr index) ->
  forall (tables : list (gset string)) (n : nat),
    (exists i indices,
        find_cluster v n tables = inl (Some (n + i)) /\
        tables !! i = Some indices /\ index ∈ indices /\
        forall j indices', j < i -> tables !! j = Some indices' -> index ∉ indices')
    \/ (find_cluster v n tables = inl None /\
        forall indices, indices ∈ tables -> index ∉ indices).
Proof.
  intros Hindex tables. induction tables as [|indices tables IH]; intros n.
  - right. split; [reflexivity|]. intros indices Hin. inversion Hin.
  - cbn [find_cluster]. rewrite Hindex. cbn [rbind in_indices ret].
    case_bool_decide as Hin.
    + left. exists 0, indices. rewrite Nat.add_0_r.
      repeat split; auto. intros j indices' Hj. lia.
    + destruct (IH (S n)) as [(i & indices' & Hfind & Hi & Hmem & Hlow)|[Hfind Hnone]].
      * left. exists (S i), indices'. rewrite Hfind.
        replace (n + S i) with (S n + i) by lia.
        repeat split; auto.
        intros [|j] indices'' Hj Hlook; cbn in Hlook.
        -- injection Hlook as <-. exact Hin.
        -- apply (Hlow j); [lia|exact Hlook].
      * right. split; [exact Hfind|].
        intros indices' Hmem. inversion Hmem; subst; auto.
Qed.

Lemma append_at_insert (i : nat) (v : json) (split : list (list json)) sub :
  split !! i = Some sub -> append_at i v split = <[i := sub ++ [v]]> split.
Proof.
  unfold append_at. revert i. induction split as [|x split IH]; intros [|i] Hi;
    cbn in *; try discriminate.
  - injection Hi as ->. reflexivity.
  - f_equal. apply IH. exact Hi.
Qed.

Lemma split_record_routes
    (tables : list (gset string)) (record : ConsumerRecord) (v : json)
    (split : list (list json)) (w : world) :
  json_loads (value record) = inl v ->
  validate v = [] ->
  length split = length tables ->
  exists index,
    getitem v "_index" = inl (JStr index) /\
    ((exists i indices sub,
         tables !! i = Some indices /\ index ∈ indices /\
         (forall j indices', j < i -> tables !! j = Some indices' ->
                             index ∉ indices') /\
         split !! i = Some sub /\
         split_record json_loads str_error tables record split w =
           (inl (<[i := sub ++ [v]]> split), w))
     \/ ((forall indices, indices ∈ tables -> index ∉ indices) /\
         split_record json_loads str_error tables record split w =
           (inl split,
            log_warning "Could not find cluster for index %s"
              [ArgJson (JStr index)]
              (inc_invalid_records MISSING_INDEX w)))).
Proof.
  intros Hloads Hvalid Hlen.
  destruct (validate_nil_inv v Hvalid) as (d & index & id & src & Hreq).
  assert (Hindex : getitem v "_index" = inl (JStr index)).
  { destruct Hreq as [-> Hi _ _ _ _ _]. cbn. rewrite Hi. reflexivity. }
  exists index. split; [exact Hindex|].
  unfold split_record. rewrite Hloads, Hvalid.
  unfold mbind, lift, modify, mret.
  destruct (find_cluster_spec v index Hindex tables 0)
    as [(i & indices & Hfind & Hi & Hmem & Hlow)|[Hfind Hnone]];
    rewrite Hfind.
  - left. cbn [Nat.add].
    destruct (split !! i) as [sub|] eqn:Hsub.
    + exists i, indices, sub. rewrite (append_at_insert i v split sub Hsub).
      auto 10.
    + apply lookup_ge_None in Hsub. apply lookup_lt_Some in Hi. lia.
  - right. rewrite Hindex. split; [exact Hnone|reflexivity].
Qed.

Lemma split_record_malformed
    (tables : list (gset string)) (record : ConsumerRecord)
    (split : list (list json)) (w : world) :
  json_loads (value record) = inr ValueError ->
  exists w',
    split_record json_loads str_error tables record split w = (inl split, w') /\
    log w' = log w ++ [Warning "Invalid message: %s"
                         [ArgBytes (take 128 (value record))]] /\
    length (take 128 (value record)) <= 128 /\
    metrics w' = metrics w /\
    calls w' = calls w.
Proof.
  intros Hloads. unfold split_record. rewrite Hloads.
  eexists. split; [reflexivity|]. cbn.
  repeat split. rewrite length_take. lia.
Qed.

Lemma schema_failure_dropped
    (tables : list (gset string)) (record : ConsumerRecord) (v : json)
    (split : list (list json)) (w : world) :
  json_loads (value record) = inl v ->
  validate v <> [] ->
  split_record json_loads str_error tables record split w =
    (inl split,
     log_warning (join_lines (map str_error (validate v))) []
       (inc_invalid_records FAIL_VALIDATE w)).
Proof.
  intros Hloads Hinvalid. unfold split_record. rewrite Hloads.
  destruct (validate v); [congruence|reflexivity].
Qed.

(** ** split_records_by_cluster: a poll response *)

(** The records of a poll response, in the order the splitter visits them. *)
Definition all_records (batch : poll_response) : list ConsumerRecord :=
  concat (map snd batch).

(** The payload decodes and the validator reports violations. *)
Definition schema_failing (record : ConsumerRecord) : bool :=
  match json_loads (value record) with
  | inl v => match validate v with [] => false | _ :: _ => true end
  | inr _ => false
  end.

(** The decoder raises nothing but [ValueError]. *)
Definition decodes (record : ConsumerRecord) : Prop :=
  forall e, json_loads (value record) = inr e -> e = ValueError.

(** The payload decodes to [v], which is valid and routed to cluster [i]. *)
Definition routed (tables : list (gset string)) (record : ConsumerRecord)
    (v : json) (i : nat) : Prop :=
  json_loads (value record) = inl v /\ validate v = [] /\
  find_cluster v 0 tables = inl (Some i).

(** Each sub-batch of [split'] is the one of [split] with valid requests
    appended. *)
Definition grown (split split' : list (list json)) : Prop :=
  Forall2 (fun sub sub' =>
             exists more, sub' = sub ++ more /\
                          Forall (fun v => validate v = []) more)
          split split'.

Lemma grown_refl split : grown split split.
Proof.
  apply Forall2_same_length_lookup_2; [reflexivity|].
  intros i sub sub' H1 H2. exists []. rewrite app_nil_r. split; [congruence|constructor].
Qed.

Lemma grown_trans s1 s2 s3 : grown s1 s2 -> grown s2 s3 -> grown s1 s3.
Proof.
  unfold grown. intros H12 H23. revert s3 H23.
  induction H12 as [|a b s1 s2 (m1 & -> & Hm1) _ IH]; intros s3 H23;
    inversion H23 as [|? c ? s3' (m2 & -> & Hm2) Hrest]; subst; constructor.
  - exists (m1 ++ m2). rewrite app_assoc. split; [reflexivity|].
    apply Forall_app; auto.
  - apply IH. exact Hrest.
Qed.

Lemma grown_length split split' : grown split split' -> length split = length split'.
Proof. apply Forall2_length. Qed.

Lemma grown_insert split i sub v :
  split !! i = Some sub -> validate v = [] ->
  grown split (<[i := sub ++ [v]]> split).
Proof.
  intros Hi Hv. apply Forall2_same_length_lookup_2.
  - rewrite length_insert. reflexivity.
  - intros j a b Ha Hb. destruct (decide (i = j)) as [->|Hne].
    + rewrite list_lookup_insert_eq in Hb by (eapply lookup_lt_Some; eauto).
      exists [v]. split; [congruence|]. constructor; [exact Hv|constructor].
    + rewrite list_lookup_insert_ne in Hb by exact Hne.
      exists []. rewrite app_nil_r. split; [congruence|constructor].
Qed.

Lemma grown_elem split split' i sub v :
  grown split split' -> split !! i = Some sub -> v ∈ sub ->
  exists sub', split' !! i = Some sub' /\ v ∈ sub'.
Proof.
  intros Hg Hi Hv.
  destruct (Forall2_lookup_l _ _ _ _ _ Hg Hi) as (sub' & Hi' & more & -> & _).
  exists (sub ++ more). split; [exact Hi'|]. apply elem_of_app. left. exact Hv.
Qed.

(** What the splitter does with one record, whatever the record is. *)
Lemma split_record_step
    (tables : list (gset string)) (record : ConsumerRecord)
    (split : list (list json)) (w : world) :
  decodes record ->
  length split = length tables ->
  exists split' w' more,
    split_record json_loads str_error tables record split w = (inl split', w') /\
    grown split split' /\
    calls w' = calls w /\
    _INVALID_RECORDS (metrics w') !!! FAIL_VALIDATE =
      _INVALID_RECORDS (metrics w) !!! FAIL_VALIDATE
      + (if schema_failing record then 1 else 0) /\
    log w' = log w ++ more /\
    (forall v, json_loads (value record) = inl v -> validate v <> [] ->
               Warning (join_lines (map str_error (validate v))) [] ∈ more) /\
    (forall v i, routed tables record v i ->
                 exists sub', split' !! i = Some sub' /\ v ∈ sub').
Proof.
  intros Hdec Hlen. unfold schema_failing, routed.
  destruct (json_loads (value record)) as [v|e] eqn:Hloads.
  - destruct (validate v) as [|err errs] eqn:Hvalid.
    + destruct (split_record_routes tables record v split w Hloads Hvalid Hlen)
        as (index & Hindex & [(i & indices & sub & Hi & Hmem & Hlow & Hsub & Heq)
                             |[Hnone Heq]]).
      * exists (<[i := sub ++ [v]]> split), w, [].
        split; [exact Heq|]. split; [apply grown_insert; assumption|].
        rewrite app_nil_r, Nat.add_0_r. repeat split; auto.
        -- intros v' [= <-]. rewrite Hvalid. congruence.
        -- intros v' i' ([= <-] & _ & Hfind).
           destruct (find_cluster_spec v index Hindex tables 0)
             as [(i2 & ind2 & Hfind2 & Hi2 & Hmem2 & Hlow2)|[Hfind2 Hnone2]].
           ++ rewrite Hfind2 in Hfind. injection Hfind as <-.
              assert (i2 = i) as ->.
              { destruct (Nat.lt_trichotomy i2 i) as [Hlt|[Heq2|Hgt]]; [|exact Heq2|].
                - exfalso. exact (Hlow i2 ind2 Hlt Hi2 Hmem2).
                - exfalso. exact (Hlow2 i indices Hgt Hi Hmem). }
              exists (sub ++ [v]). cbn [Nat.add].
              rewrite list_lookup_insert_eq by (eapply lookup_lt_Some; eauto).
              split; [reflexivity|]. apply elem_of_app. right. apply list_elem_of_here.
           ++ rewrite Hfind2 in Hfind. discriminate.
      * eexists split, _, _. split; [exact Heq|].
        split; [apply grown_refl|].
        cbn [log_warning inc_invalid_records metrics _INVALID_RECORDS calls log].
        split; [reflexivity|]. split.
        { rewrite inc_lookup. rewrite bool_decide_eq_false_2; [reflexivity|].
          unfold FAIL_VALIDATE, MISSING_INDEX. discriminate. }
        split; [reflexivity|]. split.
        -- intros v' [= <-]. rewrite Hvalid. congruence.
        -- intros v' i' ([= <-] & _ & Hfind).
           destruct (find_cluster_spec v index Hindex tables 0)
             as [(i2 & ind2 & Hfind2 & Hi2 & Hmem2 & Hlow2)|[Hfind2 Hnone2]].
           ++ exfalso. apply (Hnone ind2); [|exact Hmem2].
              eapply list_elem_of_lookup_2. exact Hi2.
           ++ rewrite Hfind2 in Hfind. discriminate.
    + assert (Hne : validate v <> []) by (rewrite Hvalid; discriminate).
      rewrite (schema_failure_dropped tables record v split w Hloads Hne).
      eexists split, _, _. split; [reflexivity|].
      split; [apply grown_refl|].
      cbn [log_warning inc_invalid_records metrics _INVALID_RECORDS calls log].
      split; [reflexivity|]. split.
      { rewrite inc_lookup. rewrite bool_decide_eq_true_2 by reflexivity. reflexivity. }
      split; [reflexivity|]. split.
      * intros v' [= <-] _. apply list_elem_of_here.
      * intros v' i' ([= <-] & Hv & _). congruence.
  - assert (e = ValueError) as -> by (apply Hdec; exact Hloads).
    destruct (split_record_malformed tables record split w Hloads)
      as (w' & Heq & Hlog & _ & Hmetrics & Hcalls).
    eexists split, w', _. split; [exact Heq|].
    split; [apply grown_refl|]. split; [exact Hcalls|].
    rewrite Hmetrics, Nat.add_0_r. split; [reflexivity|].
    split; [exact Hlog|]. split.
    + intros v [=].
    + intros v i ([=] & _).
Qed.

Lemma for_fold_app {S A B} (xs ys : list A) (body : A -> B -> M S B) acc s :
  for_fold (xs ++ ys) body acc s =
  match for_fold xs body acc s with
  | (inl acc', s') => for_fold ys body acc' s'
  | (inr e, s') => (inr e, s')
  end.
Proof.
  revert acc s. induction xs as [|x xs IH]; intros acc s; [reflexivity|].
  cbn [app for_fold]. unfold mbind.
  destruct (body x acc s) as [[acc'|e] s']; [apply IH|reflexivity].
Qed.

Lemma for_fold_all_records {B} (batch : poll_response)
    (body : ConsumerRecord -> B -> M world B) acc w :
  for_fold batch (fun '(_, records) acc => for_fold records body acc) acc w =
  for_fold (all_records batch) body acc w.
Proof.
  revert acc w. induction batch as [|[tp records] batch IH]; intros acc w;
    [reflexivity|].
  unfold all_records. cbn [map concat snd for_fold].
  rewrite for_fold_app. unfold mbind.
  destruct (for_fold records body acc w) as [[acc'|e] w']; [apply IH|reflexivity].
Qed.

Lemma split_records_fold
    (tables : list (gset string)) (records : list ConsumerRecord)
    (split : list (list json)) (w : world) :
  Forall decodes records ->
  length split = length tables ->
  exists split' w' more,
    for_fold records (split_record json_loads str_error tables) split w =
      (inl split', w') /\
    grown split split' /\
    calls w' = calls w /\
    _INVALID_RECORDS (metrics w') !!! FAIL_VALIDATE =
      _INVALID_RECORDS (metrics w) !!! FAIL_VALIDATE
      + length (filter schema_failing records) /\
    log w' = log w ++ more /\
    (forall record v, record ∈ records ->
       json_loads (value record) = inl v -> validate v <> [] ->
       Warning (join_lines (map str_error (validate v))) [] ∈ more) /\
    (forall record v i, record ∈ records -> routed tables record v i ->
       exists sub', split' !! i = Some sub' /\ v ∈ sub').
Proof.
  intros Hdec. revert split w.
  induction Hdec as [|record records Hrec _ IH]; intros split w Hlen.
  - exists split, w, []. cbn. rewrite app_nil_r, Nat.add_0_r.
    split; [reflexivity|]. split; [apply grown_refl|].
    repeat split; auto; intros ? ? **;
      match goal with H : _ ∈ [] |- _ => inversion H end.
  - destruct (split_record_step tables record split w Hrec Hlen)
      as (split1 & w1 & more1 & Hstep & Hg1 & Hc1 & Hn1 & Hl1 & Hw1 & Hr1).
    destruct (IH split1 w1) as (split2 & w2 & more2 & Hfold & Hg2 & Hc2 & Hn2 & Hl2 & Hw2 & Hr2).
    { rewrite <- (grown_length _ _ Hg1). exact Hlen. }
    exists split2, w2, (more1 ++ more2). cbn [for_fold]. unfold mbind.
    rewrite Hstep. split; [exact Hfold|].
    split; [eapply grown_trans; eassumption|].
    split; [congruence|]. split.
    { rewrite Hn2, Hn1, filter_cons.
      destruct (decide (schema_failing record)) as [Hfail|Hpass];
        destruct (schema_failing record); cbn in *;
        try contradiction; try lia. }
    split; [rewrite Hl2, Hl1, app_assoc; reflexivity|]. split.
    + intros r v Hin Hloads Hinvalid. apply elem_of_app.
      inversion Hin; subst; [left|right]; eauto.
    + intros r v i Hin Hrouted.
      inversion Hin; subst; [|eauto].
      destruct (Hr1 v i Hrouted) as (sub1 & Hsub1 & Hv1).
      eapply grown_elem; eassumption.
Qed.

(** C6 (route determinism).  A record whose payload decodes and passes
    validation is appended to the sub-batch of the lowest-indexed cluster
    whose index set contains its [_index], and to no other; nothing is
    counted or logged.  When no cluster's set contains it, every sub-batch
    is left as it was, [invalid_records{missing_index}] is incremented and
    the index is logged. *)
Theorem route_first_match
    (tables : list (gset string)) (record : ConsumerRecord) (v : json)
    (split : list (list json)) (w : world) :
  json_loads (value record) = inl v ->
  validate v = [] ->
  length split = length tables ->
  exists index,
    getitem v "_index" = inl (JStr index) /\
    ((exists i indices sub split',
         tables !! i = Some indices /\ index ∈ indices /\
         (forall j indices', j < i -> tables !! j = Some indices' ->
                             index ∉ indices') /\
         split_record json_loads str_error tables record split w =
           (inl split', w) /\
         split !! i = Some sub /\
         split' !! i = Some (sub ++ [v]) /\
         (forall j, j <> i -> split' !! j = split !! j))
     \/ ((forall indices, indices ∈ tables -> index ∉ indices) /\
         exists w',
           split_record json_loads str_error tables record split w =
             (inl split, w') /\
           _INVALID_RECORDS (metrics w') =
             inc MISSING_INDEX (_INVALID_RECORDS (metrics w)) /\
           log w' = log w ++ [Warning "Could not find cluster for index %s"
                                [ArgJson (JStr index)]])).
Proof.
  intros Hloads Hvalid Hlen.
  destruct (split_record_routes tables record v split w Hloads Hvalid Hlen)
    as (index & Hindex & [(i & indices & sub & Hi & Hmem & Hlow & Hsub & Heq)
                         |[Hnone Heq]]);
    exists index; (split; [exact Hindex|]).
  - left. exists i, indices, sub, (<[i := sub ++ [v]]> split).
    repeat (split; [assumption|]). split.
    + apply list_lookup_insert_eq. eapply lookup_lt_Some. exact Hsub.
    + intros j Hj. apply list_lookup_insert_ne. congruence.
  - right. split; [exact Hnone|]. eexists. split; [exact Heq|].
    split; reflexivity.
Qed.

(** C4, as the code has it.  A record whose payload does not decode
    ([json.loads] raises [ValueError]) is dropped: the sub-batches are
    returned as they were, so the payload is neither validated, routed nor
    submitted; the first 128 bytes of the payload, at most, are logged; no
    counter moves. *)
Theorem malformed_payload_dropped
    (tables : list (gset string)) (record : ConsumerRecord)
    (split : list (list json)) (w : world) :
  json_loads (value record) = inr ValueError ->
  exists w',
    split_record json_loads str_error tables record split w = (inl split, w') /\
    log w' = log w ++ [Warning "Invalid message: %s"
                         [ArgBytes (take 128 (value record))]] /\
    length (take 128 (value record)) <= 128 /\
    metrics w' = metrics w /\
    calls w' = calls w.
Proof.
  intros Hloads. unfold split_record. rewrite Hloads.
  unfold mbind, modify, mret. eexists. split; [reflexivity|].
  unfold log_warning. cbn [log metrics calls].
  repeat split. rewrite length_take. apply Nat.le_min_l.
Qed.


(** ** Calls made by the parts of the loop *)

(** The offsets a call commits, if it is a commit. *)
Definition commit_call (c : call) : option offsets_map :=
  match c with
  | Call_commit offsets | Call_commit_async offsets => Some offsets
  | _ => None
  end.




Lemma split_record_calls tables record split w r w' :
  split_record json_loads str_error tables record split w = (r, w') ->
  calls w' = calls w.
Proof.
  unfold split_record, mbind, lift, modify, mret, mraise.
  destruct (json_loads (value record)) as [v|e].
  - destruct (validate v).
    + destruct (find_cluster v 0 tables) as [[i|]|e].
      * intros [= _ <-]. reflexivity.
      * destruct (getitem v "_index"); intros [= _ <-]; reflexivity.
      * intros [= _ <-]. reflexivity.
    + intros [= _ <-]. reflexivity.
  - destruct e; intros [= _ <-]; reflexivity.
Qed.

Lemma split_record_inl_decodes tables record split w split' w' :
  split_record json_loads str_error tables record split w = (inl split', w') ->
  decodes record.
Proof.
  unfold split_record, decodes, mraise. intros Hsplit e Hloads.
  rewrite Hloads in Hsplit. destruct e; try discriminate Hsplit. reflexivity.
Qed.

Lemma for_fold_split_calls tables records split w r w' :
  for_fold records (split_record json_loads str_error tables) split w = (r, w') ->
  calls w' = calls w.
Proof.
  revert split w. induction records as [|record records IH]; intros split w.
  - intros [= _ <-]. reflexivity.
  - cbn [for_fold]. unfold mbind.
    destruct (split_record _ _ _ _ _ w) as [[split1|e] w1] eqn:Hstep.
    + intros Hfold. rewrite (IH _ _ Hfold). eapply split_record_calls. exact Hstep.
    + intros [= _ <-]. eapply split_record_calls. exact Hstep.
Qed.

Lemma for_fold_split_decodes tables records split w split' w' :
  for_fold records (split_record json_loads str_error tables) split w =
    (inl split', w') ->
  Forall decodes records.
Proof.
  revert split w. induction records as [|record records IH]; intros split w.
  - constructor.
  - cbn [for_fold]. unfold mbind.
    destruct (split_record _ _ _ _ _ w) as [[split1|e] w1] eqn:Hstep; [|discriminate].
    intros Hfold. constructor.
    + eapply split_record_inl_decodes. exact Hstep.
    + eapply IH. exact Hfold.
Qed.

(** The splitter makes no call; when it returns, every valid record that
    finds a cluster is in that cluster's sub-batch, and there is one
    sub-batch per entry of the route table. *)
Lemma split_records_by_cluster_spec tables batch w r w' :
  split_records_by_cluster json_loads str_error tables batch w = (r, w') ->
  calls w' = calls w /\
  forall split, r = inl split ->
    length split = length tables /\
    forall record v i, record ∈ all_records batch -> routed tables record v i ->
      exists sub, split !! i = Some sub /\ v ∈ sub.
Proof.
  unfold split_records_by_cluster. rewrite for_fold_all_records. intros Hsplit.
  split; [eapply for_fold_split_calls; exact Hsplit|].
  intros split ->.
  pose proof (for_fold_split_decodes _ _ _ _ _ _ Hsplit) as Hdec.
  destruct (split_records_fold tables (all_records batch)
              (map (fun _ => []) tables) w Hdec)
    as (split' & w'' & more & Hfold & Hg & _ & _ & _ & _ & Hrouted).
  { apply length_map. }
  rewrite Hfold in Hsplit. injection Hsplit as -> ->.
  split; [|exact Hrouted].
  rewrite <- (grown_length _ _ Hg). apply length_map.
Qed.

Lemma handle_bulk_response_calls ok item w r w' :
  handle_bulk_response str_json ok item w = (r, w') -> calls w' = calls w.
Proof.
  unfold handle_bulk_response, mbind, lift, modify, mret.
  destruct (popitem item) as [[action payload]|e]; [|intros [= _ <-]; reflexivity].
  destruct (get_default payload "status" _) as [status|e];
    [|intros [= _ <-]; reflexivity].
  destruct ok.
  - destruct (contains "result" payload) as [[|]|e].
    + destruct (getitem payload "result") as [res|e].
      * destruct (lookup_key res ACTION_RESULTS) as [[label|]|e];
          intros [= _ <-]; reflexivity.
      * intros [= _ <-]. reflexivity.
    + intros [= _ <-]. reflexivity.
    + intros [= _ <-]. reflexivity.
  - destruct (eq_404 status); intros [= _ <-]; reflexivity.
Qed.

Lemma for_each_responses_calls responses w r w' :
  for_each responses (fun '(ok, item) => handle_bulk_response str_json ok item) w
    = (r, w') ->
  calls w' = calls w.
Proof.
  revert w. induction responses as [|[ok item] responses IH]; intros w.
  - intros [= _ <-]. reflexivity.
  - cbn [for_each]. unfold mbind.
    destruct (handle_bulk_response str_json ok item w) as [[[]|e] w1] eqn:Hstep.
    + intros Hrest. rewrite (IH _ Hrest). eapply handle_bulk_response_calls.
      exact Hstep.
    + intros [= _ <-]. eapply handle_bulk_response_calls. exact Hstep.
Qed.

(** [stream_to_es] records its call, and its return when it returns. *)
Lemma stream_to_es_calls bulk cluster records w r w' :
  stream_to_es str_json bulk cluster records w = (r, w') ->
  (r = inl tt /\
   calls w' = calls w ++ [Call_streaming_bulk cluster records;
                          Return_stream_to_es cluster records])
  \/ ((exists e, r = inr e) /\
      calls w' = calls w ++ [Call_streaming_bulk cluster records]).
Proof.
  unfold stream_to_es, mbind, modify, mraise.
  destruct (bulk cluster (map expand_action records)) as [responses failure].
  destruct (for_each responses _ _) as [[[]|e] w1] eqn:Hresponses.
  - apply for_each_responses_calls in Hresponses. cbn in Hresponses.
    destruct failure as [e|].
    + intros [= <- <-]. right. split; [eauto|exact Hresponses].
    + intros [= <- <-]. left. split; [reflexivity|]. cbn. rewrite Hresponses.
      rewrite <- app_assoc. reflexivity.
  - apply for_each_responses_calls in Hresponses. cbn in Hresponses.
    intros [= <- <-]. right. split; [eauto|exact Hresponses].
Qed.

Definition quiet (more : list call) : Prop :=
  Forall (fun c => commit_call c = None) more.



(** The producer of the route table only asks for aliases, and returns one
    set per cluster. *)
Lemma comprehension_available_indices ga es w r w' :
  comprehension es (available_indices ga) w = (r, w') ->
  exists more,
    calls w' = calls w ++ more /\ quiet more /\
    forall table, r = inl table -> length table = length es.
Proof.
  revert w r w'. induction es as [|cluster es IH]; intros w r w'.
  - cbn. intros [= <- <-]. exists []. rewrite app_nil_r.
    split; [reflexivity|]. split; [constructor|]. intros table [= <-]. reflexivity.
  - cbn [comprehension]. unfold mbind at 1.
    unfold available_indices at 1, mbind, modify, lift.
    destruct (ga cluster) as [aliases|e1].
    + destruct (collect_indices aliases ∅) as [indices|e2].
      * unfold mbind. destruct (comprehension es _ _) as [[table|e3] w1] eqn:Hrest.
        -- destruct (IH _ _ _ Hrest) as (more & Hcalls & Hquiet & Hlen).
           cbn [mret]. intros [= <- <-].
           exists (Call_get_alias cluster :: more).
           split; [rewrite Hcalls; cbn; rewrite <- app_assoc; reflexivity|].
           split; [constructor; [reflexivity|exact Hquiet]|].
           intros table' [= <-]. cbn. f_equal. apply Hlen. reflexivity.
        -- destruct (IH _ _ _ Hrest) as (more & Hcalls & Hquiet & Hlen).
           intros [= <- <-]. exists (Call_get_alias cluster :: more).
           split; [rewrite Hcalls; cbn; rewrite <- app_assoc; reflexivity|].
           split; [constructor; [reflexivity|exact Hquiet]|]. discriminate.
      * intros [= <- <-]. exists [Call_get_alias cluster].
        split; [reflexivity|]. split; [repeat constructor|]. discriminate.
    + intros [= <- <-]. exists [Call_get_alias cluster].
      split; [reflexivity|]. split; [repeat constructor|]. discriminate.
Qed.

(** ** The loop invariant *)













Lemma in_world_spec {A} (m : M world A) s r s' :
  in_world m s = (r, s') ->
  m (the_world s) = (r, the_world s') /\
  offsets s' = offsets s /\ cache s' = cache s /\
  last_commit s' = last_commit s.
Proof.
  unfold in_world. destruct (m (the_world s)) as [r1 w1].
  intros [= <- <-]. auto.
Qed.

Lemma call_out_calls c answer w r w' :
  call_out c answer w = (r, w') ->
  calls w' = calls w ++ [c] /\
  r = match answer with Some e => inr e | None => inl tt end.
Proof.
  unfold call_out, mbind, modify, mraise, mret.
  destruct answer; intros [= <- <-]; auto.
Qed.


Lemma all_available_indices_memo_spec es (e : env) s r s' :
  all_available_indices_memo es e s = (r, s') ->
  offsets s' = offsets s /\
  exists more,
    calls (the_world s') = calls (the_world s) ++ more /\ quiet more /\
    ((forall entry, cache s !! tt = Some entry ->
                    length (MemoizeEntry.value entry) = length es) ->
     (forall entry, cache s' !! tt = Some entry ->
                    length (MemoizeEntry.value entry) = length es) /\
     forall table, r = inl table -> length table = length es).
Proof.
  unfold all_available_indices_memo, memoized.
  destruct (cache s !! tt) as [entry|] eqn:Hentry.
  - destruct (Qgtb _ _).
    + intros [= <- <-]. cbn. split; [reflexivity|]. exists [].
      rewrite app_nil_r. split; [reflexivity|]. split; [constructor|].
      intros Hcache. split; [rewrite Hentry; exact Hcache|].
      intros table [= <-]. apply Hcache. reflexivity.
    + destruct (comprehension es _ _) as [[table|e1] w1] eqn:Hbuild;
        apply comprehension_available_indices in Hbuild
          as (more & Hcalls & Hquiet & Hlen);
        intros [= <- <-]; cbn; (split; [reflexivity|]); exists more;
        (split; [exact Hcalls|]); (split; [exact Hquiet|]); intros Hcache.
      * split.
        -- intros entry'. rewrite lookup_insert_eq. intros [= <-]. cbn. auto.
        -- intros table' [= <-]. auto.
      * split; [rewrite Hentry; exact Hcache|]. discriminate.
  - destruct (comprehension es _ _) as [[table|e1] w1] eqn:Hbuild;
      apply comprehension_available_indices in Hbuild
        as (more & Hcalls & Hquiet & Hlen);
      intros [= <- <-]; cbn; (split; [reflexivity|]); exists more;
      (split; [exact Hcalls|]); (split; [exact Hquiet|]); intros Hcache.
    + split.
      * intros entry'. rewrite lookup_insert_eq. intros [= <-]. cbn. auto.
      * intros table' [= <-]. auto.
    + split; [rewrite Hentry; exact Hcache|]. discriminate.
Qed.

(** Staging changes nothing but [offsets], and what it stages is the offset
    after the last record of a partition of the batch. *)
Lemma stage_all_spec (batch staged : poll_response) s r s' :
  for_each staged (fun '(tp, records) => stage tp records) s = (r, s') ->
  (forall tp records, (tp, records) ∈ staged -> (tp, records) ∈ batch) ->
  the_world s' = the_world s /\ cache s' = cache s /\
  forall tp om, offsets s' !! tp = Some om ->
    offsets s !! tp = Some om
    \/ exists records last_record,
         (tp, records) ∈ batch /\ last records = Some last_record /\
         om = ((offset last_record + 1)%Z, "").
Proof.
  revert s. induction staged as [|[tp0 records0] staged IH]; intros s.
  - intros [= _ <-] _. auto.
  - cbn [for_each]. unfold mbind, stage at 1, mraise, modify. intros Hfor Hsub.
    destruct (last records0) as [rec0|] eqn:Hlast.
    + apply IH in Hfor as (Hw & Hc & Ho).
      2:{ intros tp records Hin. apply Hsub. apply list_elem_of_further. exact Hin. }
      cbn in Hw, Hc. split; [exact Hw|]. split; [exact Hc|].
      intros tp om Hom. destruct (Ho tp om Hom) as [Hold|Hnew]; [|right; exact Hnew].
      cbn in Hold. destruct (decide (tp0 = tp)) as [->|Hne].
      * rewrite lookup_insert_eq in Hold. injection Hold as <-.
        right. exists records0, rec0. split; [|auto].
        apply Hsub. apply list_elem_of_here.
      * rewrite lookup_insert_ne in Hold by exact Hne. left. exact Hold.
    + injection Hfor as _ <-. auto.
Qed.




(** What the [finally] block does in the state [s] the loop was left in:
    the calls it makes, and how it is left. *)
Lemma finally_spec (fin : shutdown) s :
  let staged := bool_decide (offsets s ≠ ∅) in
  let commit_failure := if staged then commit fin (offsets s) else None in
  exists s',
    finally fin s =
      (match commit_failure, close fin with
       | Some e, _ => inr e
       | None, Some e => inr e
       | None, None => inl tt
       end, s') /\
    offsets s' = offsets s /\ cache s' = cache s /\
    calls (the_world s') =
      calls (the_world s)
      ++ (if staged then [Call_commit (offsets s)] else [])
      ++ (match commit_failure with Some _ => [] | None => [Call_close] end).
Proof.
  intros staged commit_failure. subst staged commit_failure.
  unfold finally, mbind. destruct (bool_decide (offsets s ≠ ∅)).
  - unfold in_world at 1, call_out at 1, mbind, modify, mraise, mret.
    destruct (commit fin (offsets s)) as [e|].
    + eexists. split; [reflexivity|]. cbn. auto.
    + unfold in_world, call_out, mbind, modify, mraise, mret.
      destruct (close fin) as [e|]; (eexists; split; [reflexivity|]); cbn;
        rewrite <- app_assoc; auto.
  - unfold mret, in_world, call_out, mbind, modify, mraise.
    destruct (close fin) as [e|]; (eexists; split; [reflexivity|]); cbn; auto.
Qed.



(** C5, as the code has it.  When the loop is left by an exception, in a
    state [s]: a synchronous commit of the staged offsets is issued when
    they are not empty; the consumer is closed after it when that commit
    returns, or when there was nothing to commit; and when the commit
    raises, its exception leaves [run] and the consumer is not closed.
    Nothing else is called. *)
Theorem shutdown_sequence
    (es : list string) (script : list env) (fin : shutdown) (w : world)
    (e : exn) (s : state) :
  while_true json_loads str_json str_error es script (initial_state w)
    = (inr e, s) ->
  let staged := bool_decide (offsets s ≠ ∅) in
  let commit_failure := if staged then commit fin (offsets s) else None in
  exists s',
    run json_loads str_json str_error es script fin w =
      (inr (match commit_failure, close fin with
            | Some e', _ => e'
            | None, Some e' => e'
            | None, None => e
            end), s') /\
    calls (the_world s') =
      calls (the_world s)
      ++ (if staged then [Call_commit (offsets s)] else [])
      ++ (match commit_failure with Some _ => [] | None => [Call_close] end).
Proof.
  intros Hloop staged commit_failure. unfold run. rewrite Hloop.
  destruct (finally_spec fin s) as (s' & Hfin & _ & _ & Hcalls).
  fold staged commit_failure in Hfin, Hcalls.
  exists s'. rewrite Hfin. split; [|exact Hcalls].
  destruct commit_failure; [reflexivity|]. destruct (close fin); reflexivity.
Qed.

Lemma Qgtb_true_iff (x y : Q) : Qgtb x y = true <-> (y < x)%Q.
Proof.
  split; [|apply Qgtb_true_of_lt].
  unfold Qgtb. destruct (Qlt_le_dec y x) as [Hlt|_]; [auto|discriminate].
Qed.

(** C8, as the code has it.  At the top of a pass, the asynchronous commit
    of the staged offsets is issued if and only if the staged-offset map is
    not empty and more than 60 seconds of monotonic time, strictly, have
    passed since the recorded commit time (0 before the first commit).
    When the call returns, the time is recorded and the staging map
    cleared; when it is not issued, the state is left as it is. *)
Theorem commit_gate_after_60_seconds (e : env) (now : Q) (s : state) :
  exists issue : bool,
    (issue = true <-> offsets s ≠ ∅ /\ (60 < now - last_commit s)%Q) /\
    commit_gate e now s =
      if issue then
        match commit_async e (offsets s) with
        | None =>
            (inl tt,
             {| last_commit := now; offsets := ∅; cache := cache s;
                the_world := record_call (Call_commit_async (offsets s))
                               (the_world s) |})
        | Some failure =>
            (inr failure,
             {| last_commit := last_commit s; offsets := offsets s;
                cache := cache s;
                the_world := record_call (Call_commit_async (offsets s))
                               (the_world s) |})
        end
      else (inl tt, s).
Proof.
  exists (bool_decide (offsets s ≠ ∅)
          && Qgtb (now - last_commit s) offset_commit_interval_sec).
  split.
  - rewrite andb_true_iff, bool_decide_eq_true, Qgtb_true_iff. reflexivity.
  - unfold commit_gate. destruct (_ && _); [|reflexivity].
    unfold mbind, in_world, call_out, mbind, modify, mraise, mret.
    destruct (commit_async e (offsets s)); reflexivity.
Qed.

End Properties.

(** ** ttl_memoize *)

Section ttl_memoize_properties.

Context {K : Type} `{Countable K} {V S : Type}.

(** The producer [f], with a count of how many times it has been invoked
    next to its state. *)
Definition counting (f : K -> M S V) : K -> M (nat * S) V :=
  fun args '(n, s) => let '(r, s') := f args s in (r, (Datatypes.S n, s')).

(** The cache holds nothing for [args] that is still valid at [now]. *)
Definition stale (cache : gmap K (MemoizeEntry.t V)) (args : K) (now : Q) : Prop :=
  forall entry, cache !! args = Some entry ->
                (MemoizeEntry.valid_until entry <= now)%Q.


Lemma memoized_rebuild {T} (f : K -> M T V) now args cache s :
  stale cache args now ->
  memoized f now args (cache, s) =
  match f args s with
  | (inl value, s') =>
      (inl value, (<[args := MemoizeEntry.mk value (now + TTL)%Q]> cache, s'))
  | (inr e, s') => (inr e, (cache, s'))
  end.
Proof.
  intros Hstale. unfold memoized.
  destruct (cache !! args) as [entry|] eqn:Hentry; [|reflexivity].
  rewrite (Qgtb_false _ _ (Hstale entry Hentry)). reflexivity.
Qed.



End ttl_memoize_properties.

(** * Scenarios *)

(** S1 of the specification: an update of [popularity_score] (0.5) of page
    42 of [enwiki_content]. *)
Definition happy_request : json :=
  JObj [("_index", JStr "enwiki_content");
        ("_id", JNum (NInt 42));
        ("_source", JObj [("popularity_score", JNum (NFloat 4602678819172646912))])].

Lemma expand_action_shape_witness :
  validate happy_request = [] /\
  exists index id src noop_handlers,
    getitem happy_request "_index" = inl index /\
    getitem happy_request "_id" = inl id /\
    getitem happy_request "_source" = inl (JObj src) /\
    expand_action happy_request =
      inl (Update {| _index := index; _type := "page"; _id := id |},
           BodyScript
             {| inline := "super_detect_noop";
                lang := "native";
                params := {| handlers := noop_handlers;
                             source := JObj src |} |}) /\
    dict_keys noop_handlers = dict_keys src /\
    (forall field, field ∈ dict_keys src ->
       exists policy,
         dict_get field FIELD_CONFIG = Some policy /\
         dict_get field noop_handlers = Some policy).
Proof.
  split; [reflexivity|].
  apply (expand_action_shape happy_request). reflexivity.
Defined.

(** S2: an empty [_source]; S3: a field that is not configured; S4: an
    index no cluster has. *)
Definition empty_source_request : json :=
  JObj [("_index", JStr "x"); ("_id", JNum (NInt 1)); ("_source", JObj [])].

Definition unknown_field_request : json :=
  JObj [("_index", JStr "x"); ("_id", JNum (NInt 1));
        ("_source", JObj [("unknown", JNum (NInt 1))])].

Definition missing_index_request : json :=
  JObj [("_index", JStr "zzwiki_content"); ("_id", JNum (NInt 1));
        ("_source", JObj [("popularity_score", JNum (NInt 1))])].

(** A decoder that knows four payloads, the bytes ["1"] to ["4"], and
    raises [ValueError] on every other. *)
Definition decode_known (payload : bytes) : result json :=
  match payload with
  | [Byte.x31] => inl happy_request
  | [Byte.x32] => inl empty_source_request
  | [Byte.x33] => inl unknown_field_request
  | [Byte.x34] => inl missing_index_request
  | _ => inr ValueError
  end.

Definition render_json (v : json) : string := "{...}".
Definition render_error (e : verror) : string :=
  match e with
  | NotOfType _ _ _ => "is not of type"
  | AdditionalProperties _ _ => "Additional properties are not allowed"
  | RequiredProperty _ _ => "is a required property"
  | NotEnoughProperties _ _ => "does not have enough properties"
  end.

Definition fresh_world : world :=
  {| metrics := {| _INVALID_RECORDS := ∅; SUBMIT_BATCH := 0;
                   RECORDS_PROCESSED := 0; _BULK_ACTION_RESULT := ∅ |};
     log := []; calls := [] |}.

Definition updates_0 : TopicPartition := ("updates", 0%Z).

Definition record_5 (payload : bytes) : ConsumerRecord :=
  {| offset := 5; value := payload |}.

(** The cluster has the index [enwiki_content_1] with the alias
    [enwiki_content], and updates every document it is sent. *)
Definition one_alias (cluster : string) : result dict :=
  inl [("enwiki_content_1", JObj [("aliases", JObj [("enwiki_content", JObj [])])])].

Definition all_updated : bulk_client :=
  fun cluster actions =>
    (map (fun _ => (true, [("update", JObj [("status", JNum (NInt 200));
                                            ("result", JStr "updated")])]))
         actions,
     None).

(** A pass in which the poll returns one record, at offset 5 of partition
    0 of [updates]. *)
Definition pass_with (payload : bytes) : env :=
  {| time_monotonic := 10; commit_async := fun _ => None;
     poll := inl [(updates_0, [record_5 payload])];
     time_time := 5000; get_alias := one_alias;
     streaming_bulk := all_updated |}.

(** A pass in which the poll is interrupted. *)
Definition pass_interrupted : env :=
  {| time_monotonic := 20; commit_async := fun _ => None;
     poll := inr (RuntimeError "KeyboardInterrupt");
     time_time := 5010; get_alias := one_alias;
     streaming_bulk := all_updated |}.

Definition shutdown_ok : shutdown :=
  {| commit := fun _ => None; close := None |}.

Definition shutdown_commit_fails : shutdown :=
  {| commit := fun _ => Some (RuntimeError "CommitFailedError"); close := None |}.

Definition run_known := run decode_known render_json render_error.


(** C4 as stated fails: the payload does not decode, and
    [invalid_records{fail_validate}] is not incremented. *)
Lemma malformed_payload_not_counted :
  decode_known (value (record_5 [Byte.x00])) = inr ValueError /\
  let w' := snd (split_record decode_known render_error [{["enwiki_content"]}]
                   (record_5 [Byte.x00]) [[]] fresh_world) in
  _INVALID_RECORDS (metrics w') !!! FAIL_VALIDATE
  <> S (_INVALID_RECORDS (metrics fresh_world) !!! FAIL_VALIDATE).
Proof. split; [reflexivity|]. vm_compute. discriminate. Qed.

(** C5 as stated fails: the loop is left with offset 6 staged, the
    synchronous commit raises, and the consumer is not closed. *)
Lemma close_skipped_when_commit_raises :
  let '(r, s) := run_known ["es1"] [pass_with [Byte.x00]; pass_interrupted]
                   shutdown_commit_fails fresh_world in
  r = inr (RuntimeError "CommitFailedError") /\
  calls (the_world s) =
    [Call_poll 60000; Call_get_alias "es1"; Call_poll 60000;
     Call_commit {[updates_0 := (6%Z, "")]}] /\
  Call_close ∉ calls (the_world s).
Proof.
  vm_compute. split; [reflexivity|]. split; [reflexivity|].
  intros Hin. repeat (apply elem_of_cons in Hin as [Hin|Hin]; [discriminate Hin|]).
  inversion Hin.
Qed.

(** C8 as stated fails: offsets are staged and exactly 60 seconds have
    passed since the last commit, yet no commit is issued. *)
Definition staged_at_0 : state :=
  {| last_commit := 0; offsets := {[updates_0 := (6%Z, "")]}; cache := ∅;
     the_world := fresh_world |}.

Lemma no_commit_at_60_seconds :
  offsets staged_at_0 ≠ ∅ /\
  (60 <= 60 - last_commit staged_at_0)%Q /\
  commit_gate (pass_with [Byte.x31]) 60 staged_at_0 = (inl tt, staged_at_0).
Proof.
  split; [apply map_non_empty_singleton|]. split; [discriminate|].
  vm_compute. reflexivity.
Qed.

(** ** The theorems at work *)

Definition updated_payload : dict :=
  [("status", JNum (NInt 200)); ("result", JStr "updated")].


Lemma malformed_payload_dropped_witness :
  decode_known (value (record_5 [Byte.x00])) = inr ValueError /\
  exists w',
    split_record decode_known render_error [{["enwiki_content"]}]
      (record_5 [Byte.x00]) [[]] fresh_world = (inl [[]], w') /\
    log w' = [Warning "Invalid message: %s" [ArgBytes [Byte.x00]]] /\
    metrics w' = metrics fresh_world.
Proof.
  split; [reflexivity|].
  destruct (malformed_payload_dropped decode_known render_error
              [{["enwiki_content"]}] (record_5 [Byte.x00]) [[]] fresh_world
              eq_refl)
    as (w' & Heq & Hlog & _ & Hmetrics & _).
  exists w'. auto.
Defined.

Definition three_clusters : list (gset string) :=
  [{["A"]}; {["enwiki_content"]}; {["enwiki_content"]}].

(** S1 and S6: the request for [enwiki_content], and three clusters of
    which the second and the third have the index. *)
Lemma route_first_match_witness :
  decode_known (value (record_5 [Byte.x31])) = inl happy_request /\
  validate happy_request = [] /\
  exists index,
    getitem happy_request "_index" = inl (JStr index) /\
    ((exists i indices sub split',
         three_clusters !! i = Some indices /\ index ∈ indices /\
         (forall j indices', j < i -> three_clusters !! j = Some indices' ->
                             index ∉ indices') /\
         split_record decode_known render_error three_clusters
           (record_5 [Byte.x31]) [[]; []; []] fresh_world =
           (inl split', fresh_world) /\
         [[]; []; []] !! i = Some sub /\
         split' !! i = Some (sub ++ [happy_request]) /\
         (forall j, j <> i -> split' !! j = [[]; []; []] !! j))
     \/ ((forall indices, indices ∈ three_clusters -> index ∉ indices) /\
         exists w',
           split_record decode_known render_error three_clusters
             (record_5 [Byte.x31]) [[]; []; []] fresh_world =
             (inl [[]; []; []], w') /\
           _INVALID_RECORDS (metrics w') =
             inc MISSING_INDEX (_INVALID_RECORDS (metrics fresh_world)) /\
           log w' = log fresh_world
                    ++ [Warning "Could not find cluster for index %s"
                          [ArgJson (JStr index)]])).
Proof.
  split; [reflexivity|]. split; [reflexivity|].
  apply (route_first_match decode_known render_error three_clusters
           (record_5 [Byte.x31]) happy_request [[]; []; []] fresh_world);
    reflexivity.
Defined.

(** The same request lands in the second sub-batch only. *)
Example routed_to_second_cluster :
  fst (split_record decode_known render_error three_clusters
         (record_5 [Byte.x31]) [[]; []; []] fresh_world)
  = inl [[]; [happy_request]; []].
Proof. vm_compute. reflexivity. Qed.

Definition mixed_batch : poll_response :=
  [(updates_0, [{| offset := 5; value := [Byte.x31] |};
                {| offset := 6; value := [Byte.x32] |};
                {| offset := 7; value := [Byte.x00] |}]);
   (("updates", 1%Z), [{| offset := 9; value := [Byte.x33] |}])].


(** A producer that returns 7, and one that raises. *)
Definition seven : unit -> M unit nat := fun _ s => (inl 7, s).



(** The loop is interrupted with offset 6 staged; the commit returns and
    the consumer is closed. *)
Lemma shutdown_sequence_witness :
  exists s s',
    while_true decode_known render_json render_error ["es1"]
      [pass_with [Byte.x31]; pass_interrupted] (initial_state fresh_world)
      = (inr (RuntimeError "KeyboardInterrupt"), s) /\
    run_known ["es1"] [pass_with [Byte.x31]; pass_interrupted]
      shutdown_ok fresh_world
      = (inr (RuntimeError "KeyboardInterrupt"), s') /\
    calls (the_world s') =
      calls (the_world s) ++ [Call_commit {[updates_0 := (6%Z, "")]}; Call_close].
Proof.
  eexists.
  assert (Hloop :
    while_true decode_known render_json render_error ["es1"]
      [pass_with [Byte.x31]; pass_interrupted] (initial_state fresh_world)
    = (inr (RuntimeError "KeyboardInterrupt"),
       snd (while_true decode_known render_json render_error ["es1"]
              [pass_with [Byte.x31]; pass_interrupted]
              (initial_state fresh_world)))).
  { vm_compute. reflexivity. }
  destruct (shutdown_sequence decode_known render_json render_error ["es1"]
              [pass_with [Byte.x31]; pass_interrupted] shutdown_ok fresh_world
              _ _ Hloop) as (s' & Hrun & Hcalls).
  exists s'. split; [exact Hloop|]. split; [exact Hrun|].
  rewrite Hcalls. reflexivity.
Defined.

(** S1, end to end: the record is submitted to the cluster, counted as
    updated, and offset 6 is committed after the submission returned. *)
Example happy_path :
  let s := snd (run_known ["es1"] [pass_with [Byte.x31]; pass_interrupted]
                  shutdown_ok fresh_world) in
  calls (the_world s) =
    [Call_poll 60000; Call_get_alias "es1";
     Call_streaming_bulk "es1" [happy_request];
     Return_stream_to_es "es1" [happy_request];
     Call_poll 60000;
     Call_commit {[updates_0 := (6%Z, "")]}; Call_close] /\
  _BULK_ACTION_RESULT (metrics (the_world s)) !!! "updated" = 1 /\
  RECORDS_PROCESSED (metrics (the_world s)) = 1.
Proof. vm_compute. auto. Qed.

(** * The rest of the module *)

(** ** make_es_clusters *)

(** [s.split(',')] *)
Fixpoint split_comma (s : string) : list string :=
  match s with
  | EmptyString => [""]
  | String c s' =>
      if Ascii.eqb c "," then "" :: split_comma s'
      else match split_comma s' with
           | first :: rest => String c first :: rest
           | [] => [String c ""]
           end
  end.

(** What [cluster.info()] answers, the two fields the daemon reads. *)
Record cluster_info := {
  cluster_name : string;
  cluster_uuid : string;
}.

(** What [make_es_clusters] does that can be seen from outside: the
    clusters it asks, and the lines it logs at level info. *)
Inductive startup_event :=
  | Call_info (cluster : string)
  | Log_connected (cluster_name : string).

(** The loop over the clusters, with the uuids [seen] so far. *)
Fixpoint check_clusters (info : string -> result cluster_info)
    (clusters : list string) (seen : gset string)
  : M (list startup_event) unit :=
  match clusters with
  | [] => mret tt
  | cluster :: rest =>
      do _ <- modify (fun t => t ++ [Call_info cluster]);
      do answer <- lift (info cluster);
      if bool_decide (cluster_uuid answer ∈ seen) then mraise ValueError
      else
        do _ <- modify (fun t => t ++ [Log_connected (cluster_name answer)]);
        check_clusters info rest (seen ∪ {[cluster_uuid answer]})
  end.

Definition make_es_clusters (info : string -> result cluster_info)
    (bootstrap_hosts : string) : M (list startup_event) (list string) :=
  let clusters := split_comma bootstrap_hosts in
  do _ <- check_clusters info clusters ∅;
  mret clusters.

(** The events of a start-up in which every cluster answered and was
    accepted. *)
Definition connected (clusters : list string) (answers : list cluster_info)
  : list startup_event :=
  concat (zip_with (fun cluster answer =>
                      [Call_info cluster; Log_connected (cluster_name answer)])
                   clusters answers).

Lemma check_clusters_returns info clusters seen t t' :
  check_clusters info clusters seen t = (inl tt, t') ->
  exists answers,
    Forall2 (fun cluster answer => info cluster = inl answer) clusters answers /\
    NoDup (map cluster_uuid answers) /\
    (forall answer, answer ∈ answers -> cluster_uuid answer ∉ seen) /\
    t' = t ++ connected clusters answers.
Proof.
  revert seen t. induction clusters as [|cluster rest IH]; intros seen t.
  - intros [= <-]. exists []. unfold connected. cbn. rewrite app_nil_r.
    repeat split; try constructor. intros answer Hin. inversion Hin.
  - cbn [check_clusters]. unfold mbind, modify, lift, mraise.
    destruct (info cluster) as [answer|e] eqn:Hinfo; [|discriminate].
    case_bool_decide as Hseen; [discriminate|].
    intros Hrest. apply IH in Hrest as (answers & Hall & Hnodup & Hfresh & ->).
    exists (answer :: answers). split; [constructor; assumption|]. split.
    + cbn. constructor; [|exact Hnodup].
      intros Hin. apply list_elem_of_fmap in Hin as (other & Huuid & Hother).
      apply (Hfresh other Hother). rewrite <- Huuid. set_solver.
    + split.
      * intros other Hin. inversion Hin; subst; [exact Hseen|].
        intros Hmem. apply (Hfresh other); [assumption|]. set_solver.
      * unfold connected. cbn. rewrite <- !app_assoc. reflexivity.
Qed.

Lemma check_clusters_duplicate info clusters answers seen t :
  Forall2 (fun cluster answer => info cluster = inl answer) clusters answers ->
  ~ (NoDup (map cluster_uuid answers) /\
     forall answer, answer ∈ answers -> cluster_uuid answer ∉ seen) ->
  fst (check_clusters info clusters seen t) = inr ValueError.
Proof.
  intros Hall. revert seen t.
  induction Hall as [|cluster answer clusters answers Hinfo _ IH]; intros seen t Hdup.
  - exfalso. apply Hdup. split; [constructor|]. intros answer Hin. inversion Hin.
  - cbn [check_clusters]. unfold mbind, modify, lift, mraise. rewrite Hinfo.
    case_bool_decide as Hseen; [reflexivity|].
    apply IH. intros [Hnodup Hfresh]. apply Hdup. split.
    + cbn. constructor; [|exact Hnodup].
      intros Hin. apply list_elem_of_fmap in Hin as (other & Huuid & Hother).
      apply (Hfresh other Hother). rewrite <- Huuid. set_solver.
    + intros other Hin. inversion Hin; subst; [exact Hseen|].
      intros Hmem. apply (Hfresh other); [assumption|]. set_solver.
Qed.

(** X1.  When [make_es_clusters] returns, it returns one handle per
    comma-separated host, in order; every cluster was asked for its info
    once, in order, and answered; the uuids of the answers are pairwise
    distinct; and one line was logged per cluster. *)
Theorem make_es_clusters_distinct
    (info : string -> result cluster_info) (bootstrap_hosts : string)
    (clusters : list string) (t t' : list startup_event) :
  make_es_clusters info bootstrap_hosts t = (inl clusters, t') ->
  clusters = split_comma bootstrap_hosts /\
  exists answers,
    Forall2 (fun cluster answer => info cluster = inl answer) clusters answers /\
    NoDup (map cluster_uuid answers) /\
    t' = t ++ connected clusters answers.
Proof.
  unfold make_es_clusters, mbind, mret.
  destruct (check_clusters info _ ∅ t) as [[[]|e] t1] eqn:Hcheck; [|discriminate].
  intros [= <- <-]. split; [reflexivity|].
  apply check_clusters_returns in Hcheck as (answers & Hall & Hnodup & _ & ->).
  exists answers. auto.
Qed.

(** X2.  When every configured cluster answers and two of them answer with
    the same uuid, [make_es_clusters] raises [ValueError]. *)
Theorem make_es_clusters_duplicate
    (info : string -> result cluster_info) (bootstrap_hosts : string)
    (answers : list cluster_info) (t : list startup_event) :
  Forall2 (fun cluster answer => info cluster = inl answer)
          (split_comma bootstrap_hosts) answers ->
  ~ NoDup (map cluster_uuid answers) ->
  fst (make_es_clusters info bootstrap_hosts t) = inr ValueError.
Proof.
  intros Hall Hdup. unfold make_es_clusters, mbind.
  pose proof (check_clusters_duplicate info _ answers ∅ t Hall) as Hcheck.
  assert (Hnot : ~ (NoDup (map cluster_uuid answers) /\
                    forall answer, answer ∈ answers ->
                                   cluster_uuid answer ∉ (∅ : gset string)))
    by tauto.
  specialize (Hcheck Hnot).
  destruct (check_clusters info _ ∅ t) as [[[]|e] t1]; cbn in *.
  - discriminate Hcheck.
  - injection Hcheck as ->. reflexivity.
Qed.

Example split_comma_hosts :
  split_comma "es1:9200,es2:9200" = ["es1:9200"; "es2:9200"] /\
  split_comma "" = [""] /\
  split_comma "a,,b," = ["a"; ""; "b"; ""].
Proof. repeat split; reflexivity. Qed.

(** ** available_indices and the producer of the route table *)

(** Every entry of an alias map carries an [aliases] object. *)
Definition alias_map (items : dict) : Prop :=
  forall index data, (index, data) ∈ items ->
    exists aliases, getitem data "aliases" = inl (JObj aliases).

(** [name] is an index of [items], or an alias of one. *)
Definition names (items : dict) (name : string) : Prop :=
  exists index data,
    (index, data) ∈ items /\
    (name = index \/
     exists aliases, getitem data "aliases" = inl (JObj aliases) /\
                     name ∈ dict_keys aliases).

Lemma collect_indices_names (items : dict) (indices : gset string) :
  alias_map items ->
  exists indices',
    collect_indices items indices = inl indices' /\
    forall name, name ∈ indices' <-> name ∈ indices \/ names items name.
Proof.
  revert indices. induction items as [|[index data] items IH]; intros indices Hmap.
  - exists indices. split; [reflexivity|]. intros name. split; [auto|].
    intros [Hin|(index & data & Hin & _)]; [exact Hin|inversion Hin].
  - destruct (Hmap index data) as [aliases Haliases]; [apply list_elem_of_here|].
    cbn [collect_indices]. rewrite Haliases. cbn [rbind keys ret].
    destruct (IH (indices ∪ {[index]} ∪ list_to_set (dict_keys aliases)))
      as (indices' & Heq & Hnames).
    { intros i d Hin. apply (Hmap i d). apply list_elem_of_further. exact Hin. }
    exists indices'. split; [exact Heq|]. intros name. rewrite Hnames.
    rewrite !elem_of_union, elem_of_singleton, elem_of_list_to_set. split.
    + intros [[[Hin | ->] | Hin] | (i & d & Hin & Hname)].
      * left. exact Hin.
      * right. exists index, data. split; [apply list_elem_of_here|]. left. reflexivity.
      * right. exists index, data. split; [apply list_elem_of_here|]. right. eauto.
      * right. exists i, d. split; [apply list_elem_of_further; exact Hin|exact Hname].
    + intros [Hin|(i & d & Hin & Hname)]; [auto|].
      inversion Hin; subst.
      * destruct Hname as [-> | (aliases' & Haliases' & Hkey)]; [auto|].
        rewrite Haliases in Haliases'. injection Haliases' as <-. auto.
      * right. exists i, d. auto.
Qed.

Lemma available_indices_step
    (get_alias : string -> result dict) (cluster : string) (items : dict)
    (w : world) :
  get_alias cluster = inl items ->
  alias_map items ->
  exists indices,
    available_indices get_alias cluster w =
      (inl indices, record_call (Call_get_alias cluster) w) /\
    forall name, name ∈ indices <-> names items name.
Proof.
  intros Hanswer Hmap.
  destruct (collect_indices_names items ∅ Hmap) as (indices & Heq & Hnames).
  exists indices. unfold available_indices, mbind, modify, lift.
  rewrite Hanswer, Heq. split; [reflexivity|].
  intros name. rewrite Hnames. split; [|auto].
  intros [Hin|Hname]; [|exact Hname]. exfalso. set_solver.
Qed.

(** X3.  When the cluster answers with an alias map, [available_indices]
    asks once and returns the set that holds exactly the index names of
    the map and the alias names of each index. *)
Theorem available_indices_names
    (get_alias : string -> result dict) (cluster : string) (items : dict)
    (w : world) :
  get_alias cluster = inl items ->
  alias_map items ->
  exists indices,
    available_indices get_alias cluster w =
      (inl indices, record_call (Call_get_alias cluster) w) /\
    forall name, name ∈ indices <-> names items name.
Proof. apply available_indices_step. Qed.

(** X4.  A rebuild of the route table asks the clusters in the configured
    order; when all of them answer with an alias map it returns one set per
    cluster, the set of the names of that cluster, and touches neither the
    metrics nor the log. *)
Theorem route_table_rebuild
    (get_alias : string -> result dict) (es_clusters : list string) (w : world) :
  (forall cluster, cluster ∈ es_clusters ->
     exists items, get_alias cluster = inl items /\ alias_map items) ->
  exists table,
    comprehension es_clusters (available_indices get_alias) w =
      (inl table,
       {| metrics := metrics w; log := log w;
          calls := calls w ++ map Call_get_alias es_clusters |}) /\
    Forall2 (fun cluster indices =>
               exists items,
                 get_alias cluster = inl items /\
                 forall name, name ∈ indices <-> names items name)
            es_clusters table.
Proof.
  revert w. induction es_clusters as [|cluster es IH]; intros w Hall.
  - exists []. cbn. rewrite app_nil_r. destruct w. split; [reflexivity|constructor].
  - destruct (Hall cluster) as (items & Hanswer & Hmap); [apply list_elem_of_here|].
    destruct (available_indices_step get_alias cluster items w Hanswer Hmap)
      as (indices & Heq & Hnames).
    destruct (IH (record_call (Call_get_alias cluster) w)) as (table & Hrest & Htable).
    { intros c Hc. apply Hall. apply list_elem_of_further. exact Hc. }
    exists (indices :: table). cbn [comprehension]. unfold mbind.
    rewrite Heq, Hrest. cbn. rewrite <- app_assoc. split; [reflexivity|].
    constructor; [|exact Htable]. exists items. auto.
Qed.

(** X5.  When a cluster fails to answer during a rebuild, the exception
    leaves the rebuild; the clusters before it were asked, in order, and
    the clusters after it are not asked. *)
Theorem route_table_rebuild_stops
    (get_alias : string -> result dict) (before after : list string)
    (cluster : string) (failure : exn) (w : world) :
  (forall c, c ∈ before ->
     exists items, get_alias c = inl items /\ alias_map items) ->
  get_alias cluster = inr failure ->
  comprehension (before ++ cluster :: after) (available_indices get_alias) w =
    (inr failure,
     {| metrics := metrics w; log := log w;
        calls := calls w ++ map Call_get_alias (before ++ [cluster]) |}).
Proof.
  intros Hbefore Hfail. revert w.
  induction before as [|c before IH]; intros w.
  - cbn [app comprehension]. unfold mbind, available_indices, mbind, modify, lift.
    rewrite Hfail. reflexivity.
  - destruct (Hbefore c) as (items & Hanswer & Hmap); [apply list_elem_of_here|].
    destruct (available_indices_step get_alias c items w Hanswer Hmap)
      as (indices & Heq & _).
    cbn [app comprehension]. unfold mbind at 1. rewrite Heq.
    unfold mbind. rewrite IH.
    + cbn. rewrite <- app_assoc. reflexivity.
    + intros c' Hc'. apply Hbefore. apply list_elem_of_further. exact Hc'.
Qed.

(** ** What the validator accepts, and what expand_action needs *)

Lemma find_additional_properties_none d properties :
  (forall k, k ∈ dict_keys d -> dict_contains k properties = true) ->
  find_additional_properties d properties = [].
Proof.
  unfold find_additional_properties, dict_keys.
  induction d as [|[k v] d IH]; intros Hall; [reflexivity|].
  cbn [map fst]. rewrite filter_cons.
  rewrite (Hall k) by apply list_elem_of_here. cbn.
  destruct (decide _) as [Hfalse|_]; [destruct Hfalse|].
  apply IH. intros k' Hk'. apply Hall. apply list_elem_of_further. exact Hk'.
Qed.

(** A request the schema describes: an object with exactly the keys
    [_index] (a string), [_id] (an integer or a string) and [_source], an
    object with at least one property, whose properties are configured
    fields with a number or a string as value. *)
Definition accepted (v : json) : Prop :=
  exists d index id src,
    v = JObj d /\
    (forall k, k ∈ dict_keys d -> k ∈ ["_index"; "_id"; "_source"]) /\
    dict_get "_index" d = Some (JStr index) /\
    dict_get "_id" d = Some id /\
    is_type id TInteger || is_type id TString = true /\
    dict_get "_source" d = Some (JObj src) /\
    src <> [] /\
    (forall k, k ∈ dict_keys src -> dict_contains k FIELD_CONFIG = true) /\
    (forall k x, dict_contains k FIELD_CONFIG = true ->
                 dict_get k src = Some x ->
                 is_type x TNumber || is_type x TString = true).

Lemma configured_field k :
  dict_contains k FIELD_CONFIG = true <-> k = "popularity_score".
Proof.
  unfold dict_contains, FIELD_CONFIG. cbn [dict_get].
  destruct (String.eqb_spec k "popularity_score"); split; auto; discriminate.
Qed.

Lemma top_level_property k :
  dict_contains k
    [("_index", of_type [TString]); ("_id", of_type [TInteger; TString]);
     ("_source",
       Schema [TObject] false [] 1
         (map (fun field => (fst field, of_type [TNumber; TString]))
            FIELD_CONFIG))] = true
  <-> k ∈ ["_index"; "_id"; "_source"].
Proof.
  unfold dict_contains. cbn [dict_get].
  destruct (String.eqb_spec k "_index") as [->|?]; [split; [set_solver|auto]|].
  destruct (String.eqb_spec k "_id") as [->|?]; [split; [set_solver|auto]|].
  destruct (String.eqb_spec k "_source") as [->|?]; [split; [set_solver|auto]|].
  split; [discriminate|]. set_solver.
Qed.

(** The errors below one property of an object. *)
Definition property_errors (d : dict) (path : list string)
    (p : string * schema) : list verror :=
  match dict_get (fst p) d with
  | Some x => iter_errors (snd p) (path ++ [fst p]) x
  | None => []
  end.

Lemma iter_errors_eq type aP required mP properties path v :
  iter_errors (Schema type aP required mP properties) path v =
  check_type path type v
  ++ check_additionalProperties path aP properties v
  ++ check_required path required v
  ++ check_minProperties path mP v
  ++ match v with
     | JObj d => flat_map (property_errors d path) properties
     | _ => []
     end.
Proof.
  cbn [iter_errors]. do 4 f_equal. destruct v as [| | | | |d]; try reflexivity.
  induction properties as [|[property subschema] properties IH]; [reflexivity|].
  cbn [flat_map]. unfold property_errors at 1. cbn [fst snd]. f_equal. exact IH.
Qed.

Lemma iter_errors_of_type types path v :
  iter_errors (of_type types) path v = check_type path types v.
Proof.
  unfold of_type. rewrite iter_errors_eq.
  destruct v as [| | | | |d]; cbn; try (rewrite app_nil_r; reflexivity).
  unfold find_additional_properties.
  destruct (filter _ _); cbn; rewrite app_nil_r; reflexivity.
Qed.

Lemma check_type_ok path types v :
  existsb (is_type v) types = true -> check_type path types v = [].
Proof. unfold check_type. intros ->. reflexivity. Qed.

(** X6.  The validator reports no error exactly for the requests the
    schema describes. *)
Theorem validate_accepts_exactly (v : json) :
  validate v = [] <-> accepted v.
Proof.
  split.
  - unfold validate, VALIDATOR. cbn [iter_errors]. intros Hv.
    apply app_eq_nil in Hv as [Htype Hv].
    apply app_eq_nil in Hv as [Hextra Hv].
    apply app_eq_nil in Hv as [Hreq Hv].
    apply app_eq_nil in Hv as [_ Hprops].
    destruct v as [| | | | |d]; try discriminate Htype.
    cbn in Hreq.
    destruct (dict_contains "_index" d) eqn:Hi; [|discriminate Hreq].
    destruct (dict_contains "_id" d) eqn:Hid; [|discriminate Hreq].
    destruct (dict_contains "_source" d) eqn:Hs; [|discriminate Hreq].
    apply dict_contains_true in Hi as [index Hi].
    apply dict_contains_true in Hid as [id Hid].
    apply dict_contains_true in Hs as [src Hs].
    rewrite Hi, Hid, Hs in Hprops.
    apply app_eq_nil in Hprops as [Hindex Hprops].
    apply app_eq_nil in Hprops as [Hidt Hprops].
    apply app_eq_nil in Hprops as [Hsrc _].
    apply app_eq_nil in Hindex as [Hindex _].
    apply app_eq_nil in Hidt as [Hidt _].
    destruct index as [| | |index| |]; try discriminate Hindex.
    cbn [iter_errors] in Hsrc.
    apply app_eq_nil in Hsrc as [Hst Hsrc].
    apply app_eq_nil in Hsrc as [Hsa Hsrc].
    apply app_eq_nil in Hsrc as [_ Hsrc].
    apply app_eq_nil in Hsrc as [Hsm Hfields].
    destruct src as [| | | | |src]; try discriminate Hst.
    exists d, index, id, src. split; [reflexivity|]. split.
    { intros k Hk. apply top_level_property. revert k Hk.
      apply find_additional_properties_nil.
      cbn [check_additionalProperties] in Hextra.
      match type of Hextra with
      | match ?l with _ => _ end = _ => destruct l; [reflexivity|discriminate Hextra]
      end. }
    split; [exact Hi|]. split; [exact Hid|]. split.
    { unfold check_type in Hidt. cbn [existsb] in Hidt.
      rewrite orb_false_r in Hidt.
      destruct (is_type id TInteger || is_type id TString); [reflexivity|discriminate]. }
    split; [exact Hs|]. split; [intros ->; discriminate Hsm|]. split.
    { intros k Hk.
      rewrite <- (dict_contains_map_keys (fun _ => of_type [TNumber; TString])).
      revert k Hk. apply find_additional_properties_nil.
      cbn [check_additionalProperties] in Hsa.
      match type of Hsa with
      | match ?l with _ => _ end = _ => destruct l; [reflexivity|discriminate Hsa]
      end. }
    intros k x Hk Hx. apply configured_field in Hk as ->.
    cbn [FIELD_CONFIG map fst] in Hfields. rewrite Hx in Hfields.
    apply app_eq_nil in Hfields as [Hfield _].
    cbn [iter_errors of_type] in Hfield.
    apply app_eq_nil in Hfield as [Hfield _].
    unfold check_type in Hfield. cbn [existsb] in Hfield.
    rewrite orb_false_r in Hfield.
    destruct (is_type x TNumber || is_type x TString); [reflexivity|discriminate].
  - intros (d & index & id & src & -> & Hkeys & Hi & Hid & Hidt & Hs & Hne & Hfields & Hvalues).
    unfold validate, VALIDATOR. rewrite iter_errors_eq.
    cbn [flat_map]. unfold property_errors. cbn [fst snd app].
    rewrite Hi, Hid, Hs, !iter_errors_of_type, iter_errors_eq.
    rewrite !check_type_ok
      by (cbn [existsb]; rewrite ?orb_false_r; first [exact Hidt|reflexivity]).
    unfold check_additionalProperties.
    rewrite !find_additional_properties_none;
      [|intros k Hk;
        rewrite (dict_contains_map_keys (fun _ => of_type [TNumber; TString]));
        auto
       |intros k Hk; apply top_level_property; auto].
    cbn [check_required flat_map]. unfold dict_contains. rewrite Hi, Hid, Hs.
    cbn [check_minProperties app].
    destruct src as [|kv src]; [congruence|].
    cbn [length Nat.ltb Nat.leb app FIELD_CONFIG map fst flat_map].
    unfold property_errors. cbn [fst snd].
    destruct (dict_get "popularity_score" (kv :: src)) as [x|] eqn:Hx;
      [|destruct d; reflexivity].
    rewrite iter_errors_of_type, check_type_ok; [destruct d; reflexivity|].
    cbn [existsb]. rewrite orb_false_r.
    apply (Hvalues "popularity_score"); [reflexivity|exact Hx].
Qed.

Lemma noop_handlers_of_inv (ks : list string) hs :
  noop_handlers_of ks = inl hs ->
  forall k, k ∈ ks -> dict_contains k FIELD_CONFIG = true.
Proof.
  revert hs. induction ks as [|field ks IH]; intros hs Hhs k Hk; [inversion Hk|].
  cbn [noop_handlers_of] in Hhs.
  destruct (dict_get field FIELD_CONFIG) as [policy|] eqn:Hfield; [|discriminate].
  destruct (noop_handlers_of ks) as [rest|e]; [|discriminate].
  inversion Hk; subst.
  - apply dict_contains_true. eauto.
  - eapply IH; [reflexivity|assumption].
Qed.

(** X7.  [expand_action] returns exactly for an object that has [_index],
    [_id] and an object [_source] whose keys are all configured fields; it
    looks neither at the types of [_index] and [_id], nor at the values of
    [_source], nor at other keys of the message. *)
Theorem expand_action_returns_iff (message : json) :
  (exists action body, expand_action message = inl (action, body)) <->
  (exists d index id src,
      message = JObj d /\
      dict_get "_index" d = Some index /\
      dict_get "_id" d = Some id /\
      dict_get "_source" d = Some (JObj src) /\
      forall field, field ∈ dict_keys src ->
                    dict_contains field FIELD_CONFIG = true).
Proof.
  split.
  - intros (action & body & Hexpand). unfold expand_action in Hexpand.
    destruct message as [| | | | |d]; try discriminate Hexpand.
    cbn [getitem] in Hexpand.
    destruct (dict_get "_index" d) as [index|] eqn:Hindex; [|discriminate].
    destruct (dict_get "_id" d) as [id|] eqn:Hid; [|discriminate].
    destruct (dict_get "_source" d) as [src|] eqn:Hsrc; [|discriminate].
    cbn [rbind ret] in Hexpand.
    destruct src as [| | | | |src]; try discriminate Hexpand.
    cbn [keys rbind ret] in Hexpand.
    destruct (noop_handlers_of (dict_keys src)) as [hs|e] eqn:Hhs; [|discriminate].
    exists d, index, id, src.
    repeat (split; [first [reflexivity|assumption]|]).
    eapply noop_handlers_of_inv. exact Hhs.
  - intros (d & index & id & src & -> & Hindex & Hid & Hsrc & Hfields).
    destruct (noop_handlers_of_ok (dict_keys src) Hfields) as (hs & Hhs & _).
    unfold expand_action, getitem, keys. rewrite Hindex, Hid, Hsrc. cbn.
    rewrite Hhs. cbn. eauto.
Qed.

(** X8.  A message with a [_source] field that is not configured makes
    [expand_action] raise [KeyError] for the first such field. *)
Theorem expand_action_unconfigured_field
    (d src : dict) (index id : json) (before after : list string)
    (field : string) :
  dict_get "_index" d = Some index ->
  dict_get "_id" d = Some id ->
  dict_get "_source" d = Some (JObj src) ->
  dict_keys src = before ++ field :: after ->
  (forall k, k ∈ before -> dict_contains k FIELD_CONFIG = true) ->
  dict_contains field FIELD_CONFIG = false ->
  expand_action (JObj d) = inr (KeyError field).
Proof.
  intros Hindex Hid Hsrc Hkeys Hbefore Hfield.
  unfold expand_action, getitem, keys. rewrite Hindex, Hid, Hsrc. cbn.
  rewrite Hkeys.
  assert (Hhandlers : noop_handlers_of (before ++ field :: after)
                      = inr (KeyError field)).
  { clear Hkeys. induction before as [|k before IH]; cbn [app noop_handlers_of].
    - unfold dict_contains in Hfield.
      destruct (dict_get field FIELD_CONFIG); [discriminate|reflexivity].
    - assert (Hk : dict_contains k FIELD_CONFIG = true)
        by (apply Hbefore; apply list_elem_of_here).
      apply dict_contains_true in Hk as [policy ->].
      rewrite IH; [reflexivity|].
      intros k' Hk'. apply Hbefore. apply list_elem_of_further. exact Hk'. }
  rewrite Hhandlers. reflexivity.
Qed.

(** ** stream_to_es, the whole call *)

(** The counter of a response, read off the entry [popitem] takes. *)
Definition response_label (response : bool * dict) : string :=
  match last (snd response) with
  | Some (_, JObj payload) => bulk_action_label (fst response) payload
  | _ => ""
  end.

Definition well_formed_response (response : bool * dict) : Prop :=
  exists op payload, es_response_item (snd response) op payload.

Section stream_to_es_properties.

Variable str_json : json -> string.

Lemma bulk_action_label_cases ok payload :
  (forall r, dict_get "result" payload = Some r -> hashable r = true) ->
  (ok = true /\
   ((exists s label, dict_get "result" payload = Some (JStr s) /\
                     dict_get s ACTION_RESULTS = Some label /\
                     bulk_action_label ok payload = label /\ label <> "failed")
    \/ ((forall s label, dict_get "result" payload = Some (JStr s) ->
                         dict_get s ACTION_RESULTS = Some label -> False) /\
        bulk_action_label ok payload = "ok_unknown")))
  \/ (ok = false /\ eq_404 (status_of payload) = true /\
      bulk_action_label ok payload = "missing")
  \/ (ok = false /\ eq_404 (status_of payload) = false /\
      bulk_action_label ok payload = "failed").
Proof.
  intros Hhash. unfold bulk_action_label. destruct ok.
  - left. split; [reflexivity|].
    destruct (dict_get "result" payload) as [r|] eqn:Hr.
    + destruct r as [| | |s| |];
        try (right; split; [intros s label [=]|reflexivity]).
      unfold ACTION_RESULTS. cbn [dict_get].
      destruct (String.eqb_spec s "updated") as [->|?].
      { left. exists "updated", "updated". repeat split; discriminate. }
      destruct (String.eqb_spec s "created") as [->|?].
      { left. exists "created", "created". repeat split; discriminate. }
      destruct (String.eqb_spec s "noop") as [->|?].
      { left. exists "noop", "noop". repeat split; discriminate. }
      right. split.
      * intros s' label [= <-]. cbn [dict_get].
        destruct (String.eqb_spec s "updated"); [congruence|].
        destruct (String.eqb_spec s "created"); [congruence|].
        destruct (String.eqb_spec s "noop"); [congruence|]. discriminate.
      * rewrite bool_decide_eq_false_2; [reflexivity|]. set_solver.
    + right. split; [intros s label [=]|reflexivity].
  - right. destruct (eq_404 (status_of payload)); [left|right]; auto.
Qed.

(** What the loop body does with a well-formed response, as a state
    transformer. *)
Definition count_response (op : string) (payload : dict) (label : string)
    (w : world) : world :=
  if bool_decide (label = "failed")
  then log_warning "Failed elasticsearch %s request: %s"
         [ArgStr op; ArgStr (str_prefix 512 (str_json (JObj payload)))]
         (inc_bulk_action label w)
  else inc_bulk_action label w.

Lemma handle_bulk_response_eq ok item op payload w :
  es_response_item item op payload ->
  handle_bulk_response str_json ok item w =
    (inl tt, count_response op payload (bulk_action_label ok payload) w).
Proof.
  intros [Hlast Hhash].
  unfold handle_bulk_response, mbind, lift, modify, popitem, count_response.
  rewrite Hlast. cbn [get_default ret].
  fold (status_of payload).
  destruct (bulk_action_label_cases ok payload Hhash)
    as [[-> [(s & label & Hr & Hlabel & -> & Hne)|[Hnone ->]]]
       |[(-> & H404 & ->)|(-> & H404 & ->)]].
  - cbn [contains ret]. unfold dict_contains, getitem. rewrite Hr.
    cbn [lookup_key ret]. rewrite Hlabel.
    rewrite bool_decide_eq_false_2 by exact Hne. reflexivity.
  - cbn [contains ret]. unfold dict_contains, getitem.
    destruct (dict_get "result" payload) as [r|] eqn:Hr; [|reflexivity].
    specialize (Hhash r eq_refl).
    destruct r as [| | |s| |]; try discriminate Hhash; try reflexivity.
    cbn [lookup_key ret].
    destruct (dict_get s ACTION_RESULTS) as [label|] eqn:Hlabel; [|reflexivity].
    exfalso. eapply Hnone; [reflexivity|exact Hlabel].
  - rewrite H404. reflexivity.
  - rewrite H404. reflexivity.
Qed.

Lemma count_response_facts op payload label w :
  let w' := count_response op payload label w in
  (forall l, _BULK_ACTION_RESULT (metrics w') !!! l =
             _BULK_ACTION_RESULT (metrics w) !!! l
             + (if bool_decide (l = label) then 1 else 0)) /\
  _INVALID_RECORDS (metrics w') = _INVALID_RECORDS (metrics w) /\
  RECORDS_PROCESSED (metrics w') = RECORDS_PROCESSED (metrics w) /\
  SUBMIT_BATCH (metrics w') = SUBMIT_BATCH (metrics w) /\
  calls w' = calls w /\
  length (log w') =
    length (log w) + (if bool_decide (label = "failed") then 1 else 0).
Proof.
  unfold count_response. case_bool_decide; cbn;
    (split; [intros l; apply inc_lookup|]); repeat split; try lia.
  rewrite length_app. reflexivity.
Qed.

Lemma for_each_responses_counted responses w :
  Forall well_formed_response responses ->
  exists w',
    for_each responses
      (fun '(ok, item) => handle_bulk_response str_json ok item) w
      = (inl tt, w') /\
    (forall l, _BULK_ACTION_RESULT (metrics w') !!! l =
               _BULK_ACTION_RESULT (metrics w) !!! l
               + length (filter (fun r => response_label r = l) responses)) /\
    _INVALID_RECORDS (metrics w') = _INVALID_RECORDS (metrics w) /\
    RECORDS_PROCESSED (metrics w') = RECORDS_PROCESSED (metrics w) /\
    SUBMIT_BATCH (metrics w') = SUBMIT_BATCH (metrics w) /\
    calls w' = calls w /\
    length (log w') =
      length (log w)
      + length (filter (fun r => response_label r = "failed") responses).
Proof.
  intros Hall. revert w.
  induction Hall as [|[ok item] responses (op & payload & Hitem) _ IH]; intros w.
  - exists w. cbn. repeat split; try lia.
  - cbn [snd] in Hitem. cbn [for_each]. unfold mbind.
    rewrite (handle_bulk_response_eq ok item op payload w Hitem).
    set (label := bulk_action_label ok payload).
    assert (Hlabel : response_label (ok, item) = label).
    { unfold response_label. cbn [fst snd]. destruct Hitem as [-> _]. reflexivity. }
    destruct (count_response_facts op payload label w)
      as (Hcount & Hinv & Hrec & Hsub & Hcalls & Hlog).
    destruct (IH (count_response op payload label w))
      as (w' & Heq & Hcount' & Hinv' & Hrec' & Hsub' & Hcalls' & Hlog').
    exists w'. split; [exact Heq|]. split.
    { intros l. rewrite Hcount', Hcount, filter_cons, Hlabel.
      destruct (decide (label = l)) as [->|Hne].
      - rewrite bool_decide_eq_true_2 by reflexivity. cbn. lia.
      - rewrite bool_decide_eq_false_2 by congruence. lia. }
    repeat (split; [congruence|]).
    rewrite Hlog', Hlog, filter_cons, Hlabel.
    destruct (decide (label = "failed")) as [->|Hne].
    + rewrite bool_decide_eq_true_2 by reflexivity. cbn. lia.
    + rewrite bool_decide_eq_false_2 by congruence. lia.
Qed.

(** X9.  Over a whole bulk call whose responses are well formed: each
    [bulk_action] counter grows by the number of responses of its class;
    one warning is logged per failed response; no other metric moves.  This
    holds as well when the client then raises (a connection error): the
    responses it yielded before are counted, the exception leaves
    [stream_to_es], and the return is not recorded. *)
Theorem stream_to_es_counts
    (bulk : bulk_client) (cluster : string) (records : list json)
    (responses : list (bool * dict)) (failure : option exn) (w : world) :
  bulk cluster (map expand_action records) = (responses, failure) ->
  Forall well_formed_response responses ->
  exists w',
    stream_to_es str_json bulk cluster records w =
      (match failure with Some e => inr e | None => inl tt end, w') /\
    (forall l, _BULK_ACTION_RESULT (metrics w') !!! l =
               _BULK_ACTION_RESULT (metrics w) !!! l
               + length (filter (fun r => response_label r = l) responses)) /\
    length (log w') =
      length (log w)
      + length (filter (fun r => response_label r = "failed") responses) /\
    _INVALID_RECORDS (metrics w') = _INVALID_RECORDS (metrics w) /\
    RECORDS_PROCESSED (metrics w') = RECORDS_PROCESSED (metrics w) /\
    SUBMIT_BATCH (metrics w') = SUBMIT_BATCH (metrics w) /\
    calls w' =
      calls w ++ Call_streaming_bulk cluster records
              :: match failure with
                 | Some _ => []
                 | None => [Return_stream_to_es cluster records]
                 end.
Proof.
  intros Hbulk Hall. unfold stream_to_es, mbind, modify, mraise. rewrite Hbulk.
  destruct (for_each_responses_counted responses
              (record_call (Call_streaming_bulk cluster records) w) Hall)
    as (w1 & Heq & Hcount & Hinv & Hrec & Hsub & Hcalls & Hlog).
  rewrite Heq. cbn in Hcount, Hinv, Hrec, Hsub, Hcalls, Hlog.
  destruct failure as [e|].
  - exists w1. split; [reflexivity|]. auto 10.
  - eexists. split; [reflexivity|]. cbn. rewrite Hcalls, <- app_assoc.
    auto 10.
Qed.

End stream_to_es_properties.

(** ** split_records_by_cluster, the whole batch *)

Section splitter_properties.

Variable json_loads : bytes -> result json.
Variable str_error : verror -> string.

(** What becomes of a record. *)
Inductive fate :=
  | Kept (cluster : nat) (v : json)
  | Malformed
  | Invalid
  | Unroutable.

Definition fate_of (tables : list (gset string)) (record : ConsumerRecord)
  : fate :=
  match json_loads (value record) with
  | inr _ => Malformed
  | inl v =>
      match validate v with
      | _ :: _ => Invalid
      | [] =>
          match find_cluster v 0 tables with
          | inl (Some i) => Kept i v
          | _ => Unroutable
          end
      end
  end.

(** The requests of [records] that go to cluster [i], in the order of the
    records. *)
Definition sub_batch (tables : list (gset string))
    (records : list ConsumerRecord) (i : nat) : list json :=
  flat_map (fun record =>
              match fate_of tables record with
              | Kept j v => if bool_decide (j = i) then [v] else []
              | _ => []
              end) records.

Definition is_malformed tables record : bool :=
  match fate_of tables record with Malformed => true | _ => false end.
Definition is_invalid tables record : bool :=
  match fate_of tables record with Invalid => true | _ => false end.
Definition is_unroutable tables record : bool :=
  match fate_of tables record with Unroutable => true | _ => false end.
Definition is_kept tables record : bool :=
  match fate_of tables record with Kept _ _ => true | _ => false end.

Definition bump (b : bool) : nat := if b then 1 else 0.

Lemma length_filter_cons {A} (f : A -> bool) (x : A) (xs : list A) :
  length (filter f (x :: xs)) = bump (f x) + length (filter f xs).
Proof.
  rewrite filter_cons.
  destruct (decide (f x)) as [Ht|Hf]; destruct (f x); cbn in *;
    try contradiction; reflexivity.
Qed.

Lemma list_sum_alter_append (split : list (list json)) i v :
  i < length split ->
  list_sum (map length (alter (fun records => records ++ [v]) i split))
  = list_sum (map length split) + 1.
Proof.
  revert i. induction split as [|sub split IH]; intros [|i] Hi;
    cbn [length] in Hi; try lia.
  - cbn. rewrite length_app. cbn. lia.
  - specialize (IH i ltac:(lia)). cbn in *. unfold list_sum in *. lia.
Qed.

(** One record: where it goes, what is counted and what is logged. *)
Lemma split_record_account tables record split w :
  decodes json_loads record ->
  length split = length tables ->
  exists split' w',
    split_record json_loads str_error tables record split w = (inl split', w') /\
    length split' = length split /\
    (forall i, i < length tables ->
       exists sub, split !! i = Some sub /\
         split' !! i =
           Some (sub ++ match fate_of tables record with
                        | Kept j v => if bool_decide (j = i) then [v] else []
                        | _ => []
                        end)) /\
    list_sum (map length split') =
      list_sum (map length split) + bump (is_kept tables record) /\
    _INVALID_RECORDS (metrics w') !!! FAIL_VALIDATE =
      _INVALID_RECORDS (metrics w) !!! FAIL_VALIDATE
      + bump (is_invalid tables record) /\
    _INVALID_RECORDS (metrics w') !!! MISSING_INDEX =
      _INVALID_RECORDS (metrics w) !!! MISSING_INDEX
      + bump (is_unroutable tables record) /\
    length (log w') =
      length (log w) + bump (negb (is_kept tables record)) /\
    _BULK_ACTION_RESULT (metrics w') = _BULK_ACTION_RESULT (metrics w) /\
    RECORDS_PROCESSED (metrics w') = RECORDS_PROCESSED (metrics w) /\
    SUBMIT_BATCH (metrics w') = SUBMIT_BATCH (metrics w).
Proof.
  intros Hdec Hlen.
  assert (Hsame : forall i, i < length tables ->
            exists sub, split !! i = Some sub /\ split !! i = Some (sub ++ [])).
  { intros i Hi. rewrite <- Hlen in Hi.
    apply lookup_lt_is_Some in Hi as [sub Hsub].
    exists sub. rewrite app_nil_r. auto. }
  unfold split_record, is_kept, is_invalid, is_unroutable, fate_of.
  destruct (json_loads (value record)) as [v|e] eqn:Hloads.
  - destruct (validate v) as [|err errs] eqn:Hvalid.
    + destruct (validate_nil_inv v Hvalid) as (d & index & id & src & Hreq).
      assert (Hindex : getitem v "_index" = inl (JStr index)).
      { destruct Hreq as [-> Hi _ _ _ _ _]. cbn. rewrite Hi. reflexivity. }
      unfold mbind, lift, modify, mret.
      destruct (find_cluster_spec v index Hindex tables 0)
        as [(j & indices & Hfind & Hj & _)|[Hfind _]]; rewrite Hfind.
      * cbn [Nat.add]. apply lookup_lt_Some in Hj. rewrite <- Hlen in Hj.
        eexists _, w. split; [reflexivity|]. unfold append_at.
        split; [apply length_alter|]. split.
        { intros i Hi. rewrite <- Hlen in Hi.
          apply lookup_lt_is_Some in Hi as [sub Hsub]. exists sub.
          split; [exact Hsub|]. rewrite list_lookup_alter.
          case_bool_decide as Hji; destruct (decide (j = i)); try congruence.
          - subst i. rewrite Hsub. reflexivity.
          - rewrite Hsub, app_nil_r. reflexivity. }
        split; [apply list_sum_alter_append; exact Hj|].
        cbn [bump negb]. rewrite !Nat.add_0_r. auto 10.
      * rewrite Hindex. eexists split, _. split; [reflexivity|].
        split; [reflexivity|]. split; [exact Hsame|].
        unfold log_warning, inc_invalid_records.
        cbn [metrics log calls _INVALID_RECORDS _BULK_ACTION_RESULT
             RECORDS_PROCESSED SUBMIT_BATCH bump negb].
        rewrite !inc_lookup, length_app.
        rewrite bool_decide_eq_false_2 by discriminate.
        rewrite bool_decide_eq_true_2 by reflexivity.
        cbn. rewrite !Nat.add_0_r. auto 10.
    + unfold mbind, modify, mret. eexists split, _. split; [reflexivity|].
      split; [reflexivity|]. split; [exact Hsame|].
      unfold log_warning, inc_invalid_records.
      cbn [metrics log calls _INVALID_RECORDS _BULK_ACTION_RESULT
           RECORDS_PROCESSED SUBMIT_BATCH bump negb].
      rewrite !inc_lookup, length_app.
      rewrite bool_decide_eq_true_2 by reflexivity.
      rewrite bool_decide_eq_false_2 by discriminate.
      cbn. rewrite !Nat.add_0_r. auto 10.
  - assert (e = ValueError) as -> by (apply Hdec; exact Hloads).
    unfold mbind, modify, mret. eexists split, _. split; [reflexivity|].
    split; [reflexivity|]. split; [exact Hsame|].
    unfold log_warning.
    cbn [metrics log calls _INVALID_RECORDS _BULK_ACTION_RESULT
         RECORDS_PROCESSED SUBMIT_BATCH bump negb].
    rewrite length_app. cbn. rewrite !Nat.add_0_r. auto 10.
Qed.

Lemma for_fold_split_account tables records split w :
  Forall (decodes json_loads) records ->
  length split = length tables ->
  exists split' w',
    for_fold records (split_record json_loads str_error tables) split w
      = (inl split', w') /\
    length split' = length split /\
    (forall i, i < length tables ->
       exists sub, split !! i = Some sub /\
         split' !! i = Some (sub ++ sub_batch tables records i)) /\
    list_sum (map length split') =
      list_sum (map length split) + length (filter (is_kept tables) records) /\
    _INVALID_RECORDS (metrics w') !!! FAIL_VALIDATE =
      _INVALID_RECORDS (metrics w) !!! FAIL_VALIDATE
      + length (filter (is_invalid tables) records) /\
    _INVALID_RECORDS (metrics w') !!! MISSING_INDEX =
      _INVALID_RECORDS (metrics w) !!! MISSING_INDEX
      + length (filter (is_unroutable tables) records) /\
    length (log w') =
      length (log w)
      + length (filter (fun r => negb (is_kept tables r)) records) /\
    _BULK_ACTION_RESULT (metrics w') = _BULK_ACTION_RESULT (metrics w) /\
    RECORDS_PROCESSED (metrics w') = RECORDS_PROCESSED (metrics w) /\
    SUBMIT_BATCH (metrics w') = SUBMIT_BATCH (metrics w).
Proof.
  intros Hdec. revert split w.
  induction Hdec as [|record records Hrec _ IH]; intros split w Hlen.
  - exists split, w. cbn. split; [reflexivity|]. split; [reflexivity|]. split.
    { intros i Hi. rewrite <- Hlen in Hi.
      apply lookup_lt_is_Some in Hi as [sub Hsub].
      exists sub. rewrite app_nil_r. auto. }
    rewrite !Nat.add_0_r. auto 10.
  - destruct (split_record_account tables record split w Hrec Hlen)
      as (split1 & w1 & Hstep & Hlen1 & Hsub1 & Hsum1 & Hfail1 & Hmiss1 & Hlog1
          & Hbulk1 & Hrecs1 & Htime1).
    destruct (IH split1 w1) as (split2 & w2 & Hfold & Hlen2 & Hsub2 & Hsum2
                                & Hfail2 & Hmiss2 & Hlog2 & Hbulk2 & Hrecs2 & Htime2);
      [congruence|].
    exists split2, w2. cbn [for_fold]. unfold mbind. rewrite Hstep.
    split; [exact Hfold|]. split; [congruence|]. split.
    { intros i Hi. destruct (Hsub1 i Hi) as (sub & Hsub & Hsub').
      destruct (Hsub2 i Hi) as (sub1 & Hsub1' & Hsub2').
      exists sub. split; [exact Hsub|]. rewrite Hsub2'.
      rewrite Hsub' in Hsub1'. injection Hsub1' as <-.
      unfold sub_batch. cbn [flat_map]. rewrite <- app_assoc. reflexivity. }
    rewrite !length_filter_cons. repeat split; try congruence; lia.
Qed.

(** X10.  When the decoder raises nothing but [ValueError], the splitter
    returns one sub-batch per entry of the route table, and the sub-batch
    of cluster [i] holds exactly the valid requests whose first matching
    cluster is [i], in the order of the poll response. *)
Theorem split_records_in_order
    (tables : list (gset string)) (batch : poll_response) (w : world) :
  Forall (decodes json_loads) (all_records batch) ->
  exists split w',
    split_records_by_cluster json_loads str_error tables batch w
      = (inl split, w') /\
    length split = length tables /\
    forall i, i < length tables ->
      split !! i = Some (sub_batch tables (all_records batch) i).
Proof.
  intros Hdec. unfold split_records_by_cluster. rewrite for_fold_all_records.
  destruct (for_fold_split_account tables (all_records batch)
              (map (fun _ => []) tables) w Hdec)
    as (split & w' & Hfold & Hlen & Hsub & _); [apply length_map|].
  exists split, w'. split; [exact Hfold|].
  split; [rewrite Hlen; apply length_map|].
  intros i Hi. destruct (Hsub i Hi) as (sub & Hsub0 & Hsub').
  rewrite list_lookup_fmap in Hsub0.
  destruct (tables !! i); [|discriminate]. injection Hsub0 as <-. exact Hsub'.
Qed.

(** X11.  Every record of a poll response is accounted for once: it is in
    a sub-batch, or it is counted as [fail_validate], or counted as
    [missing_index], or it is malformed, which is not counted; one warning
    is logged per record that is not in a sub-batch; no other metric
    moves. *)
Theorem split_records_accounting
    (tables : list (gset string)) (batch : poll_response) (w : world) :
  Forall (decodes json_loads) (all_records batch) ->
  exists split w' invalid unroutable malformed,
    split_records_by_cluster json_loads str_error tables batch w
      = (inl split, w') /\
    _INVALID_RECORDS (metrics w') !!! FAIL_VALIDATE =
      _INVALID_RECORDS (metrics w) !!! FAIL_VALIDATE + invalid /\
    _INVALID_RECORDS (metrics w') !!! MISSING_INDEX =
      _INVALID_RECORDS (metrics w) !!! MISSING_INDEX + unroutable /\
    malformed = length (filter (is_malformed tables) (all_records batch)) /\
    length (all_records batch) =
      list_sum (map length split) + invalid + unroutable + malformed /\
    length (log w') = length (log w) + invalid + unroutable + malformed /\
    _BULK_ACTION_RESULT (metrics w') = _BULK_ACTION_RESULT (metrics w) /\
    RECORDS_PROCESSED (metrics w') = RECORDS_PROCESSED (metrics w) /\
    SUBMIT_BATCH (metrics w') = SUBMIT_BATCH (metrics w).
Proof.
  intros Hdec. unfold split_records_by_cluster. rewrite for_fold_all_records.
  destruct (for_fold_split_account tables (all_records batch)
              (map (fun _ => []) tables) w Hdec)
    as (split & w' & Hfold & _ & _ & Hsum & Hfail & Hmiss & Hlog & Hrest);
    [apply length_map|].
  exists split, w', (length (filter (is_invalid tables) (all_records batch))),
    (length (filter (is_unroutable tables) (all_records batch))),
    (length (filter (is_malformed tables) (all_records batch))).
  split; [exact Hfold|]. split; [exact Hfail|]. split; [exact Hmiss|].
  split; [reflexivity|].
  assert (Hempty : list_sum (map length (map (fun _ : gset string => @nil json) tables)) = 0).
  { clear. induction tables as [|t ts IH]; [reflexivity|].
    unfold list_sum in *. cbn. exact IH. }
  rewrite Hempty in Hsum. cbn in Hsum.
  assert (Hparts : forall records,
            length records =
              length (filter (is_kept tables) records)
              + length (filter (is_invalid tables) records)
              + length (filter (is_unroutable tables) records)
              + length (filter (is_malformed tables) records)
            /\ length (filter (fun r => negb (is_kept tables r)) records) =
              length (filter (is_invalid tables) records)
              + length (filter (is_unroutable tables) records)
              + length (filter (is_malformed tables) records)).
  { induction records as [|r records [IH1 IH2]]; [split; reflexivity|].
    rewrite !length_filter_cons.
    unfold is_kept, is_invalid, is_unroutable, is_malformed in *.
    destruct (fate_of tables r); cbn [bump negb length]; split; lia. }
  destruct (Hparts (all_records batch)) as [Hall Hdropped].
  split; [lia|]. split; [lia|]. exact Hrest.
Qed.

(** X12.  Every request of every sub-batch the splitter returns is one
    [expand_action] turns into an action: the bulk client is never handed
    the outcome of a callback that raised. *)
Theorem split_records_expandable
    (tables : list (gset string)) (batch : poll_response) (w w' : world)
    (split : list (list json)) :
  split_records_by_cluster json_loads str_error tables batch w
    = (inl split, w') ->
  forall sub, sub ∈ split ->
    Forall (fun outcome => exists action body, outcome = inl (action, body))
           (map expand_action sub).
Proof.
  unfold split_records_by_cluster. rewrite for_fold_all_records. intros Hsplit.
  pose proof (for_fold_split_decodes json_loads str_error _ _ _ _ _ _ Hsplit)
    as Hdec.
  destruct (split_records_fold json_loads str_error tables (all_records batch)
              (map (fun _ => []) tables) w Hdec)
    as (split' & w'' & more & Hfold & Hg & _); [apply length_map|].
  rewrite Hfold in Hsplit. injection Hsplit as -> ->.
  intros sub Hsub. apply list_elem_of_lookup in Hsub as [i Hi].
  destruct (Forall2_lookup_r _ _ _ _ _ Hg Hi) as (sub0 & Hi0 & more' & -> & Hmore).
  rewrite list_lookup_fmap in Hi0.
  destruct (tables !! i); [|discriminate]. injection Hi0 as <-.
  cbn [app]. apply Forall_fmap. eapply Forall_impl; [exact Hmore|].
  intros v Hvalid. cbn.
  destruct (validate_nil_inv v Hvalid) as (d & index & id & src & Hreq).
  destruct Hreq as [-> Hindex Hid _ Hsrc _ Hfields].
  destruct (noop_handlers_of_ok (dict_keys src) Hfields) as (hs & Hhs & _).
  unfold expand_action, getitem, keys. rewrite Hindex, Hid, Hsrc. cbn.
  rewrite Hhs. cbn. eauto.
Qed.

End splitter_properties.

(** ** The parts of run *)

Section run_properties.

Variable json_loads : bytes -> result json.
Variable str_json : json -> string.
Variable str_error : verror -> string.

(** Only the bulk counters and the log differ between [w] and [w']. *)
Definition only_bulk_counted (w w' : world) : Prop :=
  _INVALID_RECORDS (metrics w') = _INVALID_RECORDS (metrics w) /\
  RECORDS_PROCESSED (metrics w') = RECORDS_PROCESSED (metrics w) /\
  SUBMIT_BATCH (metrics w') = SUBMIT_BATCH (metrics w).

Lemma only_bulk_counted_refl w : only_bulk_counted w w.
Proof. repeat split. Qed.

Lemma only_bulk_counted_trans w1 w2 w3 :
  only_bulk_counted w1 w2 -> only_bulk_counted w2 w3 -> only_bulk_counted w1 w3.
Proof. unfold only_bulk_counted. intuition congruence. Qed.

Lemma handle_bulk_response_frame ok item w r w' :
  handle_bulk_response str_json ok item w = (r, w') -> only_bulk_counted w w'.
Proof.
  unfold handle_bulk_response, mbind, lift, modify, mret.
  destruct (popitem item) as [[action payload]|e];
    [|intros [= _ <-]; apply only_bulk_counted_refl].
  destruct (get_default payload "status" _) as [status|e];
    [|intros [= _ <-]; apply only_bulk_counted_refl].
  destruct ok.
  - destruct (contains "result" payload) as [[|]|e].
    + destruct (getitem payload "result") as [res|e].
      * destruct (lookup_key res ACTION_RESULTS) as [[label|]|e];
          intros [= _ <-]; repeat split.
      * intros [= _ <-]. repeat split.
    + intros [= _ <-]. repeat split.
    + intros [= _ <-]. repeat split.
  - destruct (eq_404 status); intros [= _ <-]; repeat split.
Qed.

Lemma stream_to_es_frame bulk cluster records w r w' :
  stream_to_es str_json bulk cluster records w = (r, w') ->
  only_bulk_counted w w'.
Proof.
  unfold stream_to_es, mbind, modify, mraise.
  destruct (bulk cluster (map expand_action records)) as [responses failure].
  assert (Hloop : forall w0 r0 w1,
            for_each responses
              (fun '(ok, result) => handle_bulk_response str_json ok result) w0
              = (r0, w1) -> only_bulk_counted w0 w1).
  { induction responses as [|[ok item] responses IH]; intros w0 r0 w1.
    - intros [= _ <-]. apply only_bulk_counted_refl.
    - cbn [for_each]. unfold mbind.
      destruct (handle_bulk_response str_json ok item w0) as [[[]|e] w2] eqn:Hstep;
        apply handle_bulk_response_frame in Hstep.
      + intros Hrest. eapply only_bulk_counted_trans; [exact Hstep|]. eauto.
      + intros [= _ <-]. exact Hstep. }
  destruct (for_each responses _ _) as [[[]|e] w1] eqn:Hresponses;
    apply Hloop in Hresponses.
  - destruct failure; intros [= _ <-]; exact Hresponses.
  - intros [= _ <-]. exact Hresponses.
Qed.

(** The sub-batches that are submitted: the non-empty ones, each with its
    cluster, in the order of the clusters. *)
Fixpoint submissions (es_clusters : list string) (split : list (list json))
  : list (string * list json) :=
  match es_clusters, split with
  | cluster :: es', records :: split' =>
      match records with
      | [] => submissions es' split'
      | _ :: _ => (cluster, records) :: submissions es' split'
      end
  | _, _ => []
  end.

Definition call_and_return (submission : string * list json) : list call :=
  [Call_streaming_bulk (fst submission) (snd submission);
   Return_stream_to_es (fst submission) (snd submission)].

Lemma for_each_submit_serial (e : env) es split w r w' :
  for_each (zip es split)
    (fun '(cluster, records) =>
       match records with
       | [] => mret tt
       | _ :: _ => stream_to_es str_json (streaming_bulk e) cluster records
       end) w = (r, w') ->
  only_bulk_counted w w' /\
  exists done,
    calls w' =
      calls w ++ flat_map call_and_return done
              ++ match r with
                 | inl _ => []
                 | inr _ =>
                     match submissions es split !! length done with
                     | Some (cluster, records) =>
                         [Call_streaming_bulk cluster records]
                     | None => []
                     end
                 end /\
    match r with
    | inl _ => done = submissions es split
    | inr _ => exists failed rest,
                 submissions es split = done ++ failed :: rest
    end.
Proof.
  revert split w. induction es as [|cluster es IH]; intros split w.
  - cbn. intros [= <- <-]. split; [apply only_bulk_counted_refl|].
    exists []. cbn. rewrite app_nil_r. auto.
  - destruct split as [|records split].
    + cbn. intros [= <- <-]. split; [apply only_bulk_counted_refl|].
      exists []. cbn. rewrite app_nil_r. auto.
    + cbn [zip for_each submissions]. unfold mbind.
      destruct records as [|v records].
      * cbn [mret]. apply IH.
      * destruct (stream_to_es _ _ _ _ w) as [r1 w1] eqn:Hstream.
        pose proof (stream_to_es_frame _ _ _ _ _ _ Hstream) as Hframe.
        apply stream_to_es_calls in Hstream as [[-> Hc1]|[[e1 ->] Hc1]].
        -- intros Hrest. apply IH in Hrest as (Hframe' & done & Hcalls & Hdone).
           split; [eapply only_bulk_counted_trans; eassumption|].
           exists ((cluster, v :: records) :: done). split.
           ++ rewrite Hcalls, Hc1. cbn [flat_map call_and_return fst snd length].
              rewrite <- !app_assoc. reflexivity.
           ++ destruct r as [[]|failure].
              ** rewrite Hdone. reflexivity.
              ** destruct Hdone as (failed & rest & ->).
                 exists failed, rest. reflexivity.
        -- intros [= <- <-]. split; [exact Hframe|].
           exists []. cbn. split; [exact Hc1|]. eauto.
Qed.

(** X13.  The submissions of a pass are one observation of the
    [submit_batch] summary, whether they end by return or by exception;
    they move no counter but those of [bulk_action]. *)
Theorem submit_all_observed_once
    (es_clusters : list string) (e : env) (split : list (list json))
    (w : world) :
  let w' := snd (submit_all str_json es_clusters e split w) in
  SUBMIT_BATCH (metrics w') = S (SUBMIT_BATCH (metrics w)) /\
  RECORDS_PROCESSED (metrics w') = RECORDS_PROCESSED (metrics w) /\
  _INVALID_RECORDS (metrics w') = _INVALID_RECORDS (metrics w).
Proof.
  unfold submit_all, timed.
  destruct (for_each _ _ w) as [r w1] eqn:Hfor. cbn.
  apply for_each_submit_serial in Hfor as [(Hinv & Hrec & Hsub) _].
  rewrite Hsub. auto.
Qed.

(** X14.  The submissions of a pass are serialized in the order of the
    clusters, and a cluster with an empty sub-batch is not called: the
    calls made are the call and the return for each non-empty sub-batch in
    turn, up to the first one that raises, whose call is the last call
    made. *)
Theorem submit_all_serial
    (es_clusters : list string) (e : env) (split : list (list json))
    (w : world) :
  let '(r, w') := submit_all str_json es_clusters e split w in
  exists done,
    match r with
    | inl _ =>
        done = submissions es_clusters split /\
        calls w' = calls w ++ flat_map call_and_return done
    | inr _ =>
        exists failed rest,
          submissions es_clusters split = done ++ failed :: rest /\
          calls w' =
            calls w ++ flat_map call_and_return done
                    ++ [Call_streaming_bulk (fst failed) (snd failed)]
    end.
Proof.
  unfold submit_all, timed.
  destruct (for_each _ _ w) as [r w1] eqn:Hfor.
  apply for_each_submit_serial in Hfor as (_ & done & Hcalls & Hdone).
  exists done. destruct r as [[]|failure].
  - split; [exact Hdone|]. cbn. rewrite Hcalls, app_nil_r. reflexivity.
  - destruct Hdone as (failed & rest & Hsubs). exists failed, rest.
    split; [exact Hsubs|]. cbn. rewrite Hcalls, Hsubs.
    rewrite lookup_app_r by reflexivity. rewrite Nat.sub_diag. cbn.
    destruct failed. reflexivity.
Qed.

(** ** What run calls *)

(** A call [run] may make with the clusters [es]: a commit of offsets that
    are not empty; a bulk call, or a return from it, for a configured
    cluster and a non-empty batch of valid requests; an alias listing of a
    configured cluster; a poll with the timeout of 60000 ms; the close. *)
Definition sound_call (es : list string) (c : call) : Prop :=
  match c with
  | Call_commit offs | Call_commit_async offs => offs ≠ ∅
  | Call_streaming_bulk cluster records
  | Return_stream_to_es cluster records =>
      records <> [] /\ cluster ∈ es /\
      Forall (fun v => validate v = []) records
  | Call_get_alias cluster => cluster ∈ es
  | Call_poll timeout_ms => timeout_ms = 60000%Z
  | Call_close => True
  end.

Definition sound_calls (es : list string) (w w' : world) : Prop :=
  exists more, calls w' = calls w ++ more /\ Forall (sound_call es) more.

Lemma sound_calls_refl es w w' : calls w' = calls w -> sound_calls es w w'.
Proof. intros Hcalls. exists []. rewrite app_nil_r. split; [exact Hcalls|constructor]. Qed.

Lemma sound_calls_trans es w1 w2 w3 :
  sound_calls es w1 w2 -> sound_calls es w2 w3 -> sound_calls es w1 w3.
Proof.
  intros (m1 & H1 & Hs1) (m2 & H2 & Hs2). exists (m1 ++ m2).
  split; [rewrite H2, H1, app_assoc; reflexivity|]. apply Forall_app. auto.
Qed.

Lemma sound_calls_one es w w' c :
  calls w' = calls w ++ [c] -> sound_call es c -> sound_calls es w w'.
Proof. intros Hcalls Hc. exists [c]. split; [exact Hcalls|]. repeat constructor. exact Hc. Qed.

Lemma commit_gate_sound es (e : env) now s r s' :
  commit_gate e now s = (r, s') ->
  sound_calls es (the_world s) (the_world s').
Proof.
  unfold commit_gate. destruct (bool_decide (offsets s ≠ ∅)) eqn:Hstaged; cbn [andb].
  - apply bool_decide_eq_true in Hstaged. destruct (Qgtb _ _).
    + unfold mbind. destruct (in_world _ s) as [r1 s1] eqn:Hcall.
      apply in_world_spec in Hcall as (Hcall & _).
      apply call_out_calls in Hcall as [Hcalls _].
      destruct r1 as [[]|e1]; intros [= _ <-]; cbn;
        eapply sound_calls_one; eauto.
    + intros [= _ <-]. apply sound_calls_refl. reflexivity.
  - intros [= _ <-]. apply sound_calls_refl. reflexivity.
Qed.

Lemma comprehension_sound ga (es all : list string) w r w' :
  (forall c, c ∈ es -> c ∈ all) ->
  comprehension es (available_indices ga) w = (r, w') ->
  sound_calls all w w'.
Proof.
  revert w r w'. induction es as [|cluster es IH]; intros w r w' Hsub.
  - intros [= _ <-]. apply sound_calls_refl. reflexivity.
  - cbn [comprehension]. unfold mbind at 1.
    unfold available_indices at 1, mbind, modify, lift.
    assert (Hone : sound_calls all w (record_call (Call_get_alias cluster) w)).
    { eapply sound_calls_one; [reflexivity|]. apply Hsub. apply list_elem_of_here. }
    assert (Hsub' : forall c, c ∈ es -> c ∈ all).
    { intros c Hc. apply Hsub. apply list_elem_of_further. exact Hc. }
    destruct (ga cluster) as [aliases|e1]; [|intros [= _ <-]; exact Hone].
    destruct (collect_indices aliases ∅) as [indices|e2];
      [|intros [= _ <-]; exact Hone].
    unfold mbind. destruct (comprehension es _ _) as [[table|e3] w1] eqn:Hrest;
      apply (IH _ _ _ Hsub') in Hrest; intros [= _ <-];
      eapply sound_calls_trans; eassumption.
Qed.

Lemma all_available_indices_memo_sound es (e : env) s r s' :
  all_available_indices_memo es e s = (r, s') ->
  sound_calls es (the_world s) (the_world s').
Proof.
  unfold all_available_indices_memo, memoized.
  destruct (match cache s !! () with
            | Some entry => _
            | None => None
            end).
  - intros [= _ <-]. apply sound_calls_refl. reflexivity.
  - destruct (comprehension es _ _) as [[table|e1] w1] eqn:Hbuild;
      apply (comprehension_sound _ es es) in Hbuild; auto;
      intros [= _ <-]; exact Hbuild.
Qed.

Lemma split_records_valid tables batch w split w' :
  split_records_by_cluster json_loads str_error tables batch w
    = (inl split, w') ->
  forall sub, sub ∈ split -> Forall (fun v => validate v = []) sub.
Proof.
  unfold split_records_by_cluster. rewrite for_fold_all_records. intros Hsplit.
  pose proof (for_fold_split_decodes json_loads str_error _ _ _ _ _ _ Hsplit)
    as Hdec.
  destruct (split_records_fold json_loads str_error tables (all_records batch)
              (map (fun _ => []) tables) w Hdec)
    as (split' & w'' & more & Hfold & Hg & _); [apply length_map|].
  rewrite Hfold in Hsplit. injection Hsplit as -> ->.
  intros sub Hsub. apply list_elem_of_lookup in Hsub as [i Hi].
  destruct (Forall2_lookup_r _ _ _ _ _ Hg Hi) as (sub0 & Hi0 & more' & -> & Hmore).
  rewrite list_lookup_fmap in Hi0.
  destruct (tables !! i); [|discriminate]. injection Hi0 as <-. exact Hmore.
Qed.

Lemma submissions_elem es split cluster records :
  (cluster, records) ∈ submissions es split ->
  records <> [] /\ cluster ∈ es /\ records ∈ split.
Proof.
  revert split. induction es as [|c es IH]; intros [|sub split] Hin;
    try (inversion Hin; fail).
  cbn [submissions] in Hin. destruct sub as [|v sub].
  - apply IH in Hin as (Hne & Hc & Hr).
    repeat split; [exact Hne| |]; apply list_elem_of_further; assumption.
  - inversion Hin; subst.
    + repeat split; [discriminate| |]; apply list_elem_of_here.
    + apply IH in H1 as (Hne & Hc & Hr).
      repeat split; [exact Hne| |]; apply list_elem_of_further; assumption.
Qed.

Lemma submit_all_sound es (e : env) split w r w' :
  (forall sub, sub ∈ split -> Forall (fun v => validate v = []) sub) ->
  submit_all str_json es e split w = (r, w') ->
  sound_calls es w w'.
Proof.
  intros Hvalid. unfold submit_all, timed.
  destruct (for_each _ _ w) as [r1 w1] eqn:Hfor. intros [= _ <-].
  apply for_each_submit_serial in Hfor as (_ & done & Hcalls & Hdone).
  assert (Hsound : forall submission,
            submission ∈ submissions es split ->
            sound_call es (Call_streaming_bulk (fst submission) (snd submission)) /\
            sound_call es (Return_stream_to_es (fst submission) (snd submission))).
  { intros [cluster records] Hin. apply submissions_elem in Hin as (Hne & Hc & Hr).
    cbn. auto 10. }
  eexists. split; [cbn; exact Hcalls|]. apply Forall_app. split.
  - rewrite List.Forall_flat_map. apply Forall_forall. intros submission Hin.
    destruct (Hsound submission) as [Hcall Hret].
    { destruct r1 as [[]|failure].
      - rewrite <- Hdone. exact Hin.
      - destruct Hdone as (failed & rest & ->). apply elem_of_app. left. exact Hin. }
    unfold call_and_return.
    constructor; [exact Hcall|]. constructor; [exact Hret|constructor].
  - destruct r1 as [[]|failure]; [constructor|].
    destruct (submissions es split !! length done) as [[cluster records]|] eqn:Hk;
      [|constructor].
    constructor; [|constructor].
    apply (Hsound (cluster, records)). eapply list_elem_of_lookup_2. exact Hk.
Qed.

Lemma iteration_sound es (e : env) s r s' :
  iteration json_loads str_json str_error es e s = (r, s') ->
  sound_calls es (the_world s) (the_world s').
Proof.
  unfold iteration, mbind.
  destruct (commit_gate e (time_monotonic e) s) as [r1 s1] eqn:Hgate.
  apply (commit_gate_sound es) in Hgate.
  destruct r1 as [[]|e1]; [|intros [= _ <-]; exact Hgate].
  destruct (in_world (modify (record_call (Call_poll 60000))) s1) as [r2 s2] eqn:Hpoll.
  apply in_world_spec in Hpoll as (Hpoll & _).
  unfold modify in Hpoll. injection Hpoll as <- Hw2.
  assert (H2 : sound_calls es (the_world s) (the_world s2)).
  { eapply sound_calls_trans; [exact Hgate|].
    eapply sound_calls_one; [rewrite <- Hw2; reflexivity|reflexivity]. }
  clear Hgate Hw2. unfold lift.
  destruct (poll e) as [batch|e2]; [|intros [= _ <-]; exact H2].
  destruct batch as [|partition batch]; [intros [= _ <-]; exact H2|].
  remember (partition :: batch) as polled eqn:Hpolled. clear Hpolled.
  destruct (in_world (modify _) s2) as [r3 s3] eqn:Hcount.
  apply in_world_spec in Hcount as (Hcount & _).
  unfold modify in Hcount. injection Hcount as <- Hw3.
  assert (H3 : sound_calls es (the_world s) (the_world s3)).
  { eapply sound_calls_trans; [exact H2|].
    apply sound_calls_refl. rewrite <- Hw3. reflexivity. }
  clear H2 Hw3.
  destruct (all_available_indices_memo es e s3) as [r4 s4] eqn:Hmemo.
  apply all_available_indices_memo_sound in Hmemo.
  assert (H4 : sound_calls es (the_world s) (the_world s4))
    by (eapply sound_calls_trans; eassumption).
  clear H3 Hmemo.
  destruct r4 as [table|e4]; [|intros [= _ <-]; exact H4].
  destruct (in_world (split_records_by_cluster _ _ _ _) s4) as [r5 s5] eqn:Hsplit.
  apply in_world_spec in Hsplit as (Hsplit & _).
  pose proof (split_records_by_cluster_spec json_loads str_error _ _ _ _ _ Hsplit)
    as [Hcalls5 _].
  assert (H5 : sound_calls es (the_world s) (the_world s5)).
  { eapply sound_calls_trans; [exact H4|]. apply sound_calls_refl. exact Hcalls5. }
  clear H4 Hcalls5.
  destruct r5 as [split|e5]; [|intros [= _ <-]; exact H5].
  pose proof (split_records_valid _ _ _ _ _ Hsplit) as Hvalid.
  destruct (in_world (submit_all _ _ _ _) s5) as [r6 s6] eqn:Hsubmit.
  apply in_world_spec in Hsubmit as (Hsubmit & _).
  apply (submit_all_sound es e split _ _ _ Hvalid) in Hsubmit.
  assert (H6 : sound_calls es (the_world s) (the_world s6))
    by (eapply sound_calls_trans; eassumption).
  clear H5 Hsubmit.
  destruct r6 as [[]|e6]; [|intros [= _ <-]; exact H6].
  intros Hstage.
  apply (stage_all_spec polled) in Hstage as (Hw7 & _); [|auto].
  rewrite Hw7. exact H6.
Qed.

Lemma run_sound es script (fin : shutdown) w :
  sound_calls es w
    (the_world (snd (run json_loads str_json str_error es script fin w))).
Proof.
  unfold run.
  assert (Hloop : forall s r s',
            while_true json_loads str_json str_error es script s = (r, s') ->
            sound_calls es (the_world s) (the_world s')).
  { unfold while_true. induction script as [|e script IH]; intros s r s'.
    - intros [= _ <-]. apply sound_calls_refl. reflexivity.
    - cbn [for_each]. unfold mbind.
      destruct (iteration _ _ _ es e s) as [r1 s1] eqn:Hiter.
      apply iteration_sound in Hiter.
      destruct r1 as [[]|e1]; [|intros [= _ <-]; exact Hiter].
      intros Hrest. eapply sound_calls_trans; [exact Hiter|]. eauto. }
  destruct (while_true _ _ _ es script (initial_state w)) as [r1 s1] eqn:Hrun.
  apply Hloop in Hrun. cbn in Hrun.
  destruct r1 as [[]|e1]; [exact Hrun|].
  destruct (finally_spec fin s1) as (s2 & Hfin & _ & _ & Hcalls).
  rewrite Hfin.
  assert (Hfinal : sound_calls es (the_world s1) (the_world s2)).
  { eexists. split; [exact Hcalls|]. apply Forall_app. split.
    - case_bool_decide as Hstaged; repeat constructor. exact Hstaged.
    - destruct (if bool_decide (offsets s1 ≠ ∅) then _ else _);
        repeat constructor. }
  destruct (match _ with Some _ => _ | None => _ end) as [[]|e2];
    cbn; eapply sound_calls_trans; eassumption.
Qed.

(** X15.  [run] never commits an empty offset map: every commit it makes,
    asynchronous in the loop or synchronous on the way out, carries at
    least one offset. *)
Theorem run_commits_are_not_empty
    (es : list string) (script : list env) (fin : shutdown) (w : world) :
  exists new,
    calls (the_world (snd (run json_loads str_json str_error es script fin w)))
      = calls w ++ new /\
    forall c offs, c ∈ new -> commit_call c = Some offs -> offs ≠ ∅.
Proof.
  destruct (run_sound es script fin w) as (new & Hcalls & Hsound).
  exists new. split; [exact Hcalls|].
  intros c offs Hin Hcommit. rewrite Forall_forall in Hsound.
  specialize (Hsound c Hin). destruct c; try discriminate Hcommit;
    injection Hcommit as <-; exact Hsound.
Qed.

(** X16.  Every bulk call [run] makes is for a configured cluster, with a
    batch that is not empty and holds only requests that pass validation,
    each of which [expand_action] turns into an action. *)
Theorem run_bulk_calls_are_valid
    (es : list string) (script : list env) (fin : shutdown) (w : world) :
  exists new,
    calls (the_world (snd (run json_loads str_json str_error es script fin w)))
      = calls w ++ new /\
    forall cluster records,
      Call_streaming_bulk cluster records ∈ new ->
      cluster ∈ es /\ records <> [] /\
      Forall (fun v => validate v = [] /\
                       exists action body, expand_action v = inl (action, body))
             records.
Proof.
  destruct (run_sound es script fin w) as (new & Hcalls & Hsound).
  exists new. split; [exact Hcalls|].
  intros cluster records Hin. rewrite Forall_forall in Hsound.
  destruct (Hsound _ Hin) as (Hne & Hc & Hvalid).
  split; [exact Hc|]. split; [exact Hne|].
  eapply Forall_impl; [exact Hvalid|]. intros v Hv. split; [exact Hv|].
  destruct (validate_nil_inv v Hv) as (d & index & id & src & Hreq).
  destruct Hreq as [-> Hindex Hid _ Hsrc _ Hfields].
  destruct (noop_handlers_of_ok (dict_keys src) Hfields) as (hs & Hhs & _).
  unfold expand_action, getitem, keys. rewrite Hindex, Hid, Hsrc. cbn.
  rewrite Hhs. cbn. eauto.
Qed.

(** ** What a pass counts and stages *)

Lemma commit_gate_metrics (e : env) now s r s' :
  commit_gate e now s = (r, s') ->
  metrics (the_world s') = metrics (the_world s) /\
  log (the_world s') = log (the_world s).
Proof.
  unfold commit_gate. destruct (_ && _); [|intros [= _ <-]; auto].
  unfold mbind, in_world, call_out, mbind, modify, mraise, mret.
  destruct (commit_async e (offsets s)); intros [= _ <-]; auto.
Qed.

Lemma comprehension_metrics ga es w r w' :
  comprehension es (available_indices ga) w = (r, w') ->
  metrics w' = metrics w /\ log w' = log w.
Proof.
  revert w r w'. induction es as [|cluster es IH]; intros w r w'.
  - intros [= _ <-]. auto.
  - cbn [comprehension]. unfold mbind at 1.
    unfold available_indices at 1, mbind, modify, lift.
    destruct (ga cluster) as [aliases|e1]; [|intros [= _ <-]; auto].
    destruct (collect_indices aliases ∅) as [indices|e2]; [|intros [= _ <-]; auto].
    unfold mbind. destruct (comprehension es _ _) as [[table|e3] w1] eqn:Hrest;
      apply IH in Hrest as [Hm Hl]; intros [= _ <-]; auto.
Qed.

Lemma all_available_indices_memo_metrics es (e : env) s r s' :
  all_available_indices_memo es e s = (r, s') ->
  metrics (the_world s') = metrics (the_world s) /\
  log (the_world s') = log (the_world s).
Proof.
  unfold all_available_indices_memo, memoized.
  destruct (match cache s !! () with
            | Some entry => _
            | None => None
            end); [intros [= _ <-]; auto|].
  destruct (comprehension es _ _) as [[table|e1] w1] eqn:Hbuild;
    apply comprehension_metrics in Hbuild; intros [= _ <-]; exact Hbuild.
Qed.

(** The splitter moves no metric but [invalid_records]. *)
Definition only_invalid_counted (w w' : world) : Prop :=
  _BULK_ACTION_RESULT (metrics w') = _BULK_ACTION_RESULT (metrics w) /\
  RECORDS_PROCESSED (metrics w') = RECORDS_PROCESSED (metrics w) /\
  SUBMIT_BATCH (metrics w') = SUBMIT_BATCH (metrics w).

Lemma split_record_frame tables record split w r w' :
  split_record json_loads str_error tables record split w = (r, w') ->
  only_invalid_counted w w'.
Proof.
  unfold split_record, mbind, lift, modify, mret, mraise.
  destruct (json_loads (value record)) as [v|e].
  - destruct (validate v).
    + destruct (find_cluster v 0 tables) as [[i|]|e].
      * intros [= _ <-]. repeat split.
      * destruct (getitem v "_index"); intros [= _ <-]; repeat split.
      * intros [= _ <-]. repeat split.
    + intros [= _ <-]. repeat split.
  - destruct e; intros [= _ <-]; repeat split.
Qed.

Lemma split_records_frame tables batch w r w' :
  split_records_by_cluster json_loads str_error tables batch w = (r, w') ->
  only_invalid_counted w w'.
Proof.
  unfold split_records_by_cluster. rewrite for_fold_all_records.
  generalize (map (fun _ : gset string => @nil json) tables) as split.
  generalize (all_records batch) as records. intros records. revert w.
  induction records as [|record records IH]; intros w split.
  - intros [= _ <-]. repeat split.
  - cbn [for_fold]. unfold mbind.
    destruct (split_record _ _ _ _ _ w) as [[split1|e] w1] eqn:Hstep;
      apply split_record_frame in Hstep.
    + intros Hrest. apply IH in Hrest.
      unfold only_invalid_counted in *. intuition congruence.
    + intros [= _ <-]. exact Hstep.
Qed.

Lemma total_records_all (batch : poll_response) :
  total_records batch = length (all_records batch).
Proof.
  unfold total_records, all_records.
  induction batch as [|[tp records] batch IH]; [reflexivity|].
  cbn [map concat snd list_sum]. rewrite length_app.
  unfold list_sum in *. cbn. rewrite IH. reflexivity.
Qed.

(** X17.  A pass whose poll returns a batch adds the number of records of
    the batch, dropped ones included, to [records_total], whether the pass
    then returns or raises. *)
Theorem records_counted_when_polled
    (es : list string) (e : env) (s : state) (batch : poll_response) :
  fst (commit_gate e (time_monotonic e) s) = inl tt ->
  poll e = inl batch ->
  RECORDS_PROCESSED
    (metrics (the_world
                (snd (iteration json_loads str_json str_error es e s))))
  = RECORDS_PROCESSED (metrics (the_world s)) + length (all_records batch).
Proof.
  intros Hgate_ok Hbatch. unfold iteration, mbind.
  destruct (commit_gate e (time_monotonic e) s) as [r1 s1] eqn:Hgate.
  cbn in Hgate_ok. subst r1.
  apply commit_gate_metrics in Hgate as [Hm1 _].
  destruct (in_world (modify (record_call (Call_poll 60000))) s1) as [r2 s2] eqn:Hpoll.
  apply in_world_spec in Hpoll as (Hpoll & _).
  unfold modify in Hpoll. injection Hpoll as <- Hw2.
  assert (H2 : RECORDS_PROCESSED (metrics (the_world s2))
               = RECORDS_PROCESSED (metrics (the_world s))).
  { rewrite <- Hw2. cbn. rewrite Hm1. reflexivity. }
  clear Hm1 Hw2. unfold lift. rewrite Hbatch.
  destruct batch as [|partition batch]; [cbn; lia|].
  rewrite <- total_records_all.
  remember (partition :: batch) as polled eqn:Hpolled. clear Hpolled.
  destruct (in_world (modify _) s2) as [r3 s3] eqn:Hcount.
  apply in_world_spec in Hcount as (Hcount & _).
  unfold modify in Hcount. injection Hcount as <- Hw3.
  assert (H3 : RECORDS_PROCESSED (metrics (the_world s3))
               = RECORDS_PROCESSED (metrics (the_world s)) + total_records polled).
  { rewrite <- Hw3. cbn. rewrite H2. reflexivity. }
  clear H2 Hw3.
  destruct (all_available_indices_memo es e s3) as [r4 s4] eqn:Hmemo.
  apply all_available_indices_memo_metrics in Hmemo as [Hm4 _].
  destruct r4 as [table|e4]; [|cbn; rewrite Hm4; exact H3].
  destruct (in_world (split_records_by_cluster _ _ _ _) s4) as [r5 s5] eqn:Hsplit.
  apply in_world_spec in Hsplit as (Hsplit & _).
  apply split_records_frame in Hsplit as (_ & Hr5 & _).
  destruct r5 as [split|e5]; [|cbn; rewrite Hr5, Hm4; exact H3].
  destruct (in_world (submit_all _ _ _ _) s5) as [r6 s6] eqn:Hsubmit.
  apply in_world_spec in Hsubmit as (Hsubmit & _).
  assert (Hr6 : RECORDS_PROCESSED (metrics (the_world s6))
                = RECORDS_PROCESSED (metrics (the_world s5))).
  { unfold submit_all, timed in Hsubmit.
    destruct (for_each _ _ (the_world s5)) as [r w1] eqn:Hfor.
    apply for_each_submit_serial in Hfor as [(_ & Hrec & _) _].
    injection Hsubmit as _ <-. cbn. exact Hrec. }
  destruct r6 as [[]|e6]; [|cbn; rewrite Hr6, Hr5, Hm4; exact H3].
  destruct (for_each polled _ s6) as [r7 s7] eqn:Hstage.
  apply (stage_all_spec polled) in Hstage as (Hw7 & _); [|auto].
  cbn. rewrite Hw7, Hr6, Hr5, Hm4. exact H3.
Qed.

Lemma stage_all_returns (batch : poll_response) s :
  (forall tp records, (tp, records) ∈ batch -> records <> []) ->
  fst (for_each batch (fun '(tp, records) => stage tp records) s) = inl tt.
Proof.
  revert s. induction batch as [|[tp records] batch IH]; intros s Hne;
    [reflexivity|].
  cbn [for_each]. unfold mbind, stage at 1, modify, mraise.
  destruct (last records) as [rec|] eqn:Hlast.
  - apply IH. intros tp' records' Hin. apply (Hne tp').
    apply list_elem_of_further. exact Hin.
  - apply last_None in Hlast. exfalso.
    apply (Hne tp records); [apply list_elem_of_here|exact Hlast].
Qed.

(** X18.  The staging at the end of a pass, for a batch in which every
    partition appears once and has records: it returns; for every
    partition of the batch it stages the offset of the last record plus
    one, with empty metadata; the offsets staged for other partitions stay;
    the world is not touched. *)
Theorem staging_next_offsets (batch : poll_response) (s : state) :
  NoDup (map fst batch) ->
  (forall tp records, (tp, records) ∈ batch -> records <> []) ->
  let '(r, s') :=
    for_each batch (fun '(tp, records) => stage tp records) s in
  r = inl tt /\
  the_world s' = the_world s /\
  (forall tp records, (tp, records) ∈ batch ->
     exists last_record,
       last records = Some last_record /\
       offsets s' !! tp = Some ((offset last_record + 1)%Z, "")) /\
  (forall tp, tp ∉ map fst batch -> offsets s' !! tp = offsets s !! tp).
Proof.
  revert s. induction batch as [|[tp0 records0] batch IH]; intros s Hnodup Hne.
  - cbn. repeat split; auto. intros tp records Hin. inversion Hin.
  - cbn [for_each]. unfold mbind, stage at 1, modify, mraise.
    destruct (last records0) as [rec0|] eqn:Hlast.
    2:{ apply last_None in Hlast. exfalso.
        apply (Hne tp0 records0); [apply list_elem_of_here|exact Hlast]. }
    cbn [map fst] in Hnodup. apply NoDup_cons in Hnodup as [Hfresh Hnodup].
    assert (Hne' : forall tp records, (tp, records) ∈ batch -> records <> []).
    { intros tp records Hin. apply (Hne tp). apply list_elem_of_further. exact Hin. }
    match goal with
    | |- context [for_each batch ?body ?s1] =>
        specialize (IH s1 Hnodup Hne');
        destruct (for_each batch body s1) as [r s']
    end.
    destruct IH as (-> & Hw & Hstaged & Hother).
    split; [reflexivity|]. split; [rewrite Hw; reflexivity|]. split.
    + intros tp records Hin. inversion Hin; subst.
      * exists rec0. split; [exact Hlast|].
        rewrite Hother by exact Hfresh. cbn. apply lookup_insert_eq.
      * apply Hstaged. assumption.
    + intros tp Hnot. cbn [map fst] in Hnot.
      apply not_elem_of_cons in Hnot as [Hne0 Hnot].
      rewrite (Hother tp Hnot). cbn. apply lookup_insert_ne. congruence.
Qed.

(** X19.  A pass that raises stages nothing: when every partition of a
    polled batch has records, and the pass raises (at the commit, the poll,
    the rebuild of the route table, the split or a submission), the staged
    offsets are the ones the commit gate left. *)
Theorem failed_pass_stages_nothing
    (es : list string) (e : env) (s : state) (failure : exn) :
  (forall batch tp records,
     poll e = inl batch -> (tp, records) ∈ batch -> records <> []) ->
  fst (iteration json_loads str_json str_error es e s) = inr failure ->
  offsets (snd (iteration json_loads str_json str_error es e s))
  = offsets (snd (commit_gate e (time_monotonic e) s)).
Proof.
  intros Hne. unfold iteration, mbind.
  destruct (commit_gate e (time_monotonic e) s) as [r1 s1] eqn:Hgate.
  destruct r1 as [[]|e1]; [|reflexivity].
  destruct (in_world (modify (record_call (Call_poll 60000))) s1) as [r2 s2] eqn:Hpoll.
  apply in_world_spec in Hpoll as (Hpoll & Ho2 & _).
  unfold modify in Hpoll. injection Hpoll as <- _.
  unfold lift. destruct (poll e) as [batch|e2] eqn:Hbatch; [|cbn; auto].
  destruct batch as [|partition batch]; [discriminate|].
  remember (partition :: batch) as polled eqn:Hpolled. clear Hpolled.
  destruct (in_world (modify _) s2) as [r3 s3] eqn:Hcount.
  apply in_world_spec in Hcount as (Hcount & Ho3 & _).
  unfold modify in Hcount. injection Hcount as <- _.
  destruct (all_available_indices_memo es e s3) as [r4 s4] eqn:Hmemo.
  apply all_available_indices_memo_spec in Hmemo as (Ho4 & _).
  destruct r4 as [table|e4]; [|cbn; intros _; congruence].
  destruct (in_world (split_records_by_cluster _ _ _ _) s4) as [r5 s5] eqn:Hsplit.
  apply in_world_spec in Hsplit as (_ & Ho5 & _).
  destruct r5 as [split|e5]; [|cbn; intros _; congruence].
  destruct (in_world (submit_all _ _ _ _) s5) as [r6 s6] eqn:Hsubmit.
  apply in_world_spec in Hsubmit as (_ & Ho6 & _).
  destruct r6 as [[]|e6]; [|cbn; intros _; congruence].
  intros Hraised.
  rewrite (stage_all_returns polled s6) in Hraised; [discriminate|].
  intros tp records Hin. eapply Hne; [reflexivity|exact Hin].
Qed.

End run_properties.

(** ** ttl_memoize, the cache *)

Section ttl_memoize_cache.

Context {K : Type} `{Countable K} {V S : Type}.

(** X20.  A call of the memoized function for [args] leaves the cache
    entry of every other argument tuple as it was; when it returns [v], the
    cache then holds [v] for [args] with a deadline after [now]; when it
    raises, the cache is as it was. *)
Theorem memoized_cache_entries
    (f : K -> M S V) (now : Q) (args : K)
    (cache : gmap K (MemoizeEntry.t V)) (s : S) :
  let '(r, (cache', s')) := memoized f now args (cache, s) in
  (forall args', args' <> args -> cache' !! args' = cache !! args') /\
  (forall v, r = inl v ->
     exists entry,
       cache' !! args = Some entry /\ MemoizeEntry.value entry = v /\
       (now < MemoizeEntry.valid_until entry)%Q) /\
  (forall e, r = inr e -> cache' = cache).
Proof.
  unfold memoized.
  destruct (cache !! args) as [entry|] eqn:Hentry.
  - unfold Qgtb. destruct (Qlt_le_dec now (MemoizeEntry.valid_until entry)) as [Hlt|Hle].
    + split; [reflexivity|]. split; [|discriminate].
      intros v [= <-]. exists entry. auto.
    + destruct (f args s) as [[v|e] s'].
      * split; [intros args' Hne; apply lookup_insert_ne; congruence|].
        split; [|discriminate]. intros v' [= <-].
        eexists. split; [apply lookup_insert_eq|]. split; [reflexivity|].
        cbn. unfold TTL. lra.
      * split; [reflexivity|]. split; [discriminate|reflexivity].
  - destruct (f args s) as [[v|e] s'].
    + split; [intros args' Hne; apply lookup_insert_ne; congruence|].
      split; [|discriminate]. intros v' [= <-].
      eexists. split; [apply lookup_insert_eq|]. split; [reflexivity|].
      cbn. unfold TTL. lra.
    + split; [reflexivity|]. split; [discriminate|reflexivity].
Qed.

(** X21.  An entry is not served at its deadline: a call whose clock
    reading equals the deadline of the entry invokes the producer. *)
Theorem memoized_expires_at_deadline
    (f : K -> M S V) (now : Q) (args : K)
    (cache : gmap K (MemoizeEntry.t V)) (entry : MemoizeEntry.t V)
    (n : nat) (s : S) :
  cache !! args = Some entry ->
  (MemoizeEntry.valid_until entry == now)%Q ->
  memoized (counting f) now args (cache, (n, s)) =
    match f args s with
    | (inl v, s') =>
        (inl v,
         (<[args := MemoizeEntry.mk v (now + 300)%Q]> cache, (Datatypes.S n, s')))
    | (inr e, s') => (inr e, (cache, (Datatypes.S n, s')))
    end.
Proof.
  intros Hentry Hdeadline. rewrite memoized_rebuild.
  - unfold counting. destruct (f args s) as [[v|e] s']; reflexivity.
  - intros entry' Hentry'. rewrite Hentry in Hentry'. injection Hentry' as <-.
    rewrite Hdeadline. apply Qle_refl.
Qed.

End ttl_memoize_cache.

(** ** The rest of the module at work *)

(** Two clusters that answer with different uuids, and two hosts of one
    cluster. *)
Definition info_two (cluster : string) : result cluster_info :=
  if String.eqb cluster "es1" then inl {| cluster_name := "alpha"; cluster_uuid := "u1" |}
  else if String.eqb cluster "es2" then inl {| cluster_name := "beta"; cluster_uuid := "u2" |}
  else inr (RuntimeError "ConnectionError").

Definition info_same (cluster : string) : result cluster_info :=
  inl {| cluster_name := "alpha"; cluster_uuid := "u1" |}.

Lemma make_es_clusters_distinct_witness :
  make_es_clusters info_two "es1,es2" [] =
    (inl ["es1"; "es2"],
     [Call_info "es1"; Log_connected "alpha";
      Call_info "es2"; Log_connected "beta"]) /\
  exists answers,
    Forall2 (fun cluster answer => info_two cluster = inl answer)
            ["es1"; "es2"] answers /\
    NoDup (map cluster_uuid answers).
Proof.
  assert (Hrun : make_es_clusters info_two "es1,es2" [] =
                 (inl ["es1"; "es2"],
                  [Call_info "es1"; Log_connected "alpha";
                   Call_info "es2"; Log_connected "beta"])).
  { vm_compute. reflexivity. }
  split; [exact Hrun|].
  destruct (make_es_clusters_distinct info_two "es1,es2" _ _ _ Hrun)
    as (_ & answers & Hall & Hnodup & _).
  exists answers. auto.
Defined.

Lemma make_es_clusters_duplicate_witness :
  fst (make_es_clusters info_same "es1,es2" []) = inr ValueError.
Proof.
  apply (make_es_clusters_duplicate info_same "es1,es2"
           [{| cluster_name := "alpha"; cluster_uuid := "u1" |};
            {| cluster_name := "alpha"; cluster_uuid := "u1" |}]).
  - repeat constructor.
  - intros Hnodup. apply NoDup_cons in Hnodup as [Hnot _].
    apply Hnot. apply list_elem_of_here.
Defined.

Definition enwiki_aliases : dict :=
  [("enwiki_content_1", JObj [("aliases", JObj [("enwiki_content", JObj [])])])].

Lemma enwiki_aliases_alias_map : alias_map enwiki_aliases.
Proof.
  intros index data Hin. apply list_elem_of_singleton in Hin.
  injection Hin as -> ->. eexists. reflexivity.
Defined.

Lemma available_indices_names_witness :
  exists indices,
    available_indices one_alias "es1" fresh_world =
      (inl indices, record_call (Call_get_alias "es1") fresh_world) /\
    (forall name, name ∈ indices <-> names enwiki_aliases name).
Proof.
  exact (available_indices_names one_alias "es1" enwiki_aliases fresh_world
           eq_refl enwiki_aliases_alias_map).
Defined.

Lemma route_table_rebuild_witness :
  exists table,
    fst (comprehension ["es1"; "es2"] (available_indices one_alias) fresh_world)
      = inl table /\
    length table = 2.
Proof.
  destruct (route_table_rebuild one_alias ["es1"; "es2"] fresh_world)
    as (table & Heq & Htable).
  { intros cluster _. exists enwiki_aliases.
    split; [reflexivity|exact enwiki_aliases_alias_map]. }
  exists table. rewrite Heq. split; [reflexivity|].
  apply Forall2_length in Htable. symmetry. exact Htable.
Defined.

(** The second cluster cannot be reached. *)
Definition second_down (cluster : string) : result dict :=
  if String.eqb cluster "es2" then inr (RuntimeError "ConnectionError")
  else inl enwiki_aliases.

Lemma route_table_rebuild_stops_witness :
  comprehension ["es1"; "es2"; "es3"] (available_indices second_down) fresh_world
  = (inr (RuntimeError "ConnectionError"),
     {| metrics := metrics fresh_world; log := [];
        calls := [Call_get_alias "es1"; Call_get_alias "es2"] |}).
Proof.
  apply (route_table_rebuild_stops second_down ["es1"] ["es3"] "es2"
           (RuntimeError "ConnectionError") fresh_world).
  - intros c Hc. apply list_elem_of_singleton in Hc as ->.
    exists enwiki_aliases. split; [reflexivity|exact enwiki_aliases_alias_map].
  - reflexivity.
Defined.

Lemma expand_action_unconfigured_field_witness :
  expand_action
    (JObj [("_index", JStr "x"); ("_id", JNum (NInt 1));
           ("_source", JObj [("popularity_score", JNum (NInt 1));
                             ("unknown", JNum (NInt 2))])])
  = inr (KeyError "unknown").
Proof.
  apply (expand_action_unconfigured_field _
           [("popularity_score", JNum (NInt 1)); ("unknown", JNum (NInt 2))]
           (JStr "x") (JNum (NInt 1)) ["popularity_score"] [] "unknown");
    try reflexivity.
  intros k Hk. apply list_elem_of_singleton in Hk as ->. reflexivity.
Defined.

Lemma stream_to_es_counts_witness :
  exists w',
    stream_to_es render_json all_updated "es1" [happy_request] fresh_world
      = (inl tt, w') /\
    _BULK_ACTION_RESULT (metrics w') !!! "updated" = 1 /\
    length (log w') = 0.
Proof.
  destruct (stream_to_es_counts render_json all_updated "es1" [happy_request]
              [(true, [("update", JObj updated_payload)])] None fresh_world
              eq_refl)
    as (w' & Heq & Hcount & Hlog & _).
  { constructor; [|constructor]. exists "update", updated_payload.
    split; [reflexivity|]. intros r Hr. vm_compute in Hr.
    injection Hr as <-. reflexivity. }
  exists w'. split; [exact Heq|]. split.
  - rewrite Hcount. reflexivity.
  - rewrite Hlog. reflexivity.
Defined.

Lemma mixed_batch_decodes :
  Forall (decodes decode_known) (all_records mixed_batch).
Proof. repeat constructor; intros e He; vm_compute in He; congruence. Defined.

Lemma split_records_in_order_witness :
  exists split w',
    split_records_by_cluster decode_known render_error
      [{["enwiki_content"]}] mixed_batch fresh_world = (inl split, w') /\
    split !! 0 = Some [happy_request].
Proof.
  destruct (split_records_in_order decode_known render_error
              [{["enwiki_content"]}] mixed_batch fresh_world mixed_batch_decodes)
    as (split & w' & Heq & _ & Hsub).
  exists split, w'. split; [exact Heq|].
  rewrite (Hsub 0) by (cbn; lia). reflexivity.
Defined.

Lemma split_records_accounting_witness :
  exists split w',
    split_records_by_cluster decode_known render_error
      [{["enwiki_content"]}] mixed_batch fresh_world = (inl split, w') /\
    length (log w') = length (log fresh_world) + 3.
Proof.
  destruct (split_records_accounting decode_known render_error
              [{["enwiki_content"]}] mixed_batch fresh_world mixed_batch_decodes)
    as (split & w' & invalid & unroutable & malformed & Heq & Hfail & Hmiss
        & Hmal & Hall & Hlog & _).
  exists split, w'. split; [exact Heq|].
  assert (Hsplit : list_sum (map length split) = 1).
  { pose proof Heq as Heq'. vm_compute in Heq'. injection Heq' as <- _.
    reflexivity. }
  rewrite Hlog. rewrite Hsplit in Hall. cbn in Hall. lia.
Defined.

Lemma split_records_expandable_witness :
  Forall (fun outcome => exists action body, outcome = inl (action, body))
         (map expand_action [happy_request]).
Proof.
  apply (split_records_expandable decode_known render_error
           [{["enwiki_content"]}] mixed_batch fresh_world
           (snd (split_records_by_cluster decode_known render_error
                   [{["enwiki_content"]}] mixed_batch fresh_world))
           [[happy_request]]).
  - vm_compute. reflexivity.
  - apply list_elem_of_here.
Defined.

Lemma records_counted_when_polled_witness :
  RECORDS_PROCESSED
    (metrics (the_world
                (snd (iteration decode_known render_json render_error ["es1"]
                        (pass_with [Byte.x00]) (initial_state fresh_world)))))
  = 1.
Proof.
  rewrite (records_counted_when_polled decode_known render_json render_error
             ["es1"] (pass_with [Byte.x00]) (initial_state fresh_world)
             [(updates_0, [record_5 [Byte.x00]])] eq_refl eq_refl).
  reflexivity.
Defined.

Lemma mixed_batch_partitions : NoDup (map fst mixed_batch).
Proof.
  apply NoDup_cons. split.
  - intros Hin. apply list_elem_of_singleton in Hin. discriminate Hin.
  - apply NoDup_singleton.
Defined.

Lemma mixed_batch_records :
  forall tp records, (tp, records) ∈ mixed_batch -> records <> [].
Proof.
  intros tp records Hin.
  apply elem_of_cons in Hin as [Hin|Hin]; [injection Hin as _ ->; discriminate|].
  apply list_elem_of_singleton in Hin. injection Hin as _ ->. discriminate.
Defined.

Lemma staging_next_offsets_witness :
  let '(r, s') :=
    for_each mixed_batch (fun '(tp, records) => stage tp records)
      (initial_state fresh_world) in
  r = inl tt /\
  offsets s' !! updates_0 = Some (8%Z, "") /\
  offsets s' !! ("updates", 1%Z) = Some (10%Z, "").
Proof.
  pose proof (staging_next_offsets mixed_batch (initial_state fresh_world)
                mixed_batch_partitions mixed_batch_records) as Hstage.
  destruct (for_each mixed_batch _ _) as [r s'].
  destruct Hstage as (Hr & _ & Hstaged & _).
  split; [exact Hr|]. split.
  - destruct (Hstaged updates_0 _ (list_elem_of_here _ _))
      as (rec & Hlast & Hoff).
    injection Hlast as <-. exact Hoff.
  - destruct (Hstaged ("updates", 1%Z) [{| offset := 9; value := [Byte.x33] |}])
      as (rec & Hlast & Hoff).
    { apply list_elem_of_further. apply list_elem_of_here. }
    injection Hlast as <-. exact Hoff.
Defined.

(** A pass in which the cluster cannot be reached for the bulk call. *)
Definition bulk_down : bulk_client :=
  fun cluster actions => ([], Some (RuntimeError "ConnectionError")).

Definition pass_bulk_down : env :=
  {| time_monotonic := 10; commit_async := fun _ => None;
     poll := inl [(updates_0, [record_5 [Byte.x31]])];
     time_time := 5000; get_alias := one_alias;
     streaming_bulk := bulk_down |}.

Lemma failed_pass_stages_nothing_witness :
  fst (iteration decode_known render_json render_error ["es1"] pass_bulk_down
         (initial_state fresh_world))
    = inr (RuntimeError "ConnectionError") /\
  offsets (snd (iteration decode_known render_json render_error ["es1"]
                  pass_bulk_down (initial_state fresh_world)))
    = ∅.
Proof.
  assert (Hfail : fst (iteration decode_known render_json render_error ["es1"]
                         pass_bulk_down (initial_state fresh_world))
                  = inr (RuntimeError "ConnectionError")).
  { vm_compute. reflexivity. }
  split; [exact Hfail|].
  rewrite (failed_pass_stages_nothing decode_known render_json render_error
             ["es1"] pass_bulk_down (initial_state fresh_world) _ ltac:(
               intros batch tp records Hpoll Hin; injection Hpoll as <-;
               apply list_elem_of_singleton in Hin; injection Hin as _ ->;
               discriminate) Hfail).
  reflexivity.
Defined.

Lemma memoized_expires_at_deadline_witness :
  let cache := <[tt := MemoizeEntry.mk 7 1300%Q]> ∅ in
  memoized (counting seven) 1300 tt (cache, (1, tt))
  = (inl 7, (<[tt := MemoizeEntry.mk 7 (1300 + 300)%Q]> cache, (2, tt))).
Proof.
  intros cache.
  rewrite (memoized_expires_at_deadline seven 1300 tt cache
             (MemoizeEntry.mk 7 1300%Q) 1 tt).
  - reflexivity.
  - subst cache. apply lookup_insert_eq.
  - reflexivity.
Defined.

(** The submissions of a pass with three clusters, of which the second has
    nothing to receive. *)
Example submissions_skip_empty :
  submissions ["es1"; "es2"; "es3"] [[happy_request]; []; [missing_index_request]]
  = [("es1", [happy_request]); ("es3", [missing_index_request])].
Proof. reflexivity. Qed.
